(** * net-copy: the sender ([cmd/send.go])

    A shallow embedding of the [send] command of net-copy: the directory
    walk [collectFiles], the per-file sender [sendFile], and the round
    scheduler inside [sendCmd.RunE], which runs the senders as goroutines
    behind a [sync.WaitGroup] barrier.

    Sequential code is embedded as functions.  The goroutines are embedded
    as a transition system: one step of an actor (the main goroutine or one
    sender) is one atomic action on the shared state, and a schedule (a list
    of actors) picks the interleaving. *)

From Stdlib Require Import ZArith NArith Lia String.
From Stdlib.Strings Require Import Byte.
From stdpp Require Import base option list strings numbers.

Set Default Proof Using "Type".
Set Warnings "-register-all".

(** ** Data model *)

(** [uuid.UUID].  [uuid.New()] is modelled by a counter that hands out the
    next unused number. *)
Definition UUID := nat.

(** A file path, as the list of its components; the empty list is ["."]. *)
Definition path := list string.

(** [filepath.Join(dir, name)] for a single component [name]. *)
Definition Join (dir : path) (name : string) : path := dir ++ [name].

(** [filepath.Rel(base, targ)] on component lists: the common prefix is
    dropped, every remaining component of [base] becomes [".."], and the call
    fails when the first remaining component of [base] is [".."] itself. *)
Fixpoint Rel (base targ : path) : option path :=
  match base, targ with
  | [], _ => Some targ
  | b :: base', [] =>
      if String.eqb b ".." then None
      else Some (replicate (length base) ".."%string)
  | b :: base', t :: targ' =>
      if String.eqb b t then Rel base' targ'
      else if String.eqb b ".." then None
      else Some (replicate (length base) ".."%string ++ targ)
  end.

(** [ncproto.Config]: the fields that [send.go] reads and writes.
    [Port] and [Threads] are [uint16]. *)
Record Config := mkConfig {
  Hostname : string;
  Port : N;
  WorkingDirectory : path;
  Threads : N;
  ConnectionID : UUID;
  ReadBufferSize : nat
}.

(** [ncproto.File]: the descriptor of one file to send. *)
Record File := mkFile {
  ID : UUID;
  FConnectionID : UUID;
  FileSize : Z;
  Name : string;
  RelativePath : path
}.

(** [ncproto.FileChunk]. *)
Record FileChunk := mkFileChunk {
  CID : UUID;
  CConnectionID : UUID;
  Data : list byte;
  Seq : nat
}.

(** The messages of the wire protocol.  [MsgClose] belongs to the closed set
    of message kinds of the protocol; [send.go] never builds one. *)
Inductive Frame :=
| MsgConfig (c : Config)
| MsgFile (f : File)
| MsgFileChunk (c : FileChunk)
| MsgClose
| MsgConnectionClose (id : UUID).

(** What the program writes to the console. *)
Inductive Out :=
| OutFileHeader (rel : path) (size : Z)   (* stdout: "%s (%s)\n" *)
| OutBar (bar : string)                   (* stdout: "\r%s" *)
| OutBarDone                              (* stdout: "\r####...#>\n" *)
| OutClosing                              (* stdout: "closing connection" *)
| ErrOpening (rel : path)                 (* stderr: "error opening file %s" *)
| ErrReadingFile (rel : path)             (* stderr: "error reading file %s" *)
| ErrReadDir (dir : path)                 (* stderr: "error reading %s. %v\n" *)
| ErrRel (base targ : path).              (* stderr: "%v\n" of filepath.Rel *)

(** ** The environment *)

(** An [os.FileInfo] as returned by [ioutil.ReadDir]: an entry that is not a
    directory, with its name and size, or a directory with its name and what
    [ioutil.ReadDir] returns on it ([None]: the call fails). *)
Inductive FileInfo :=
| InfoFile (name : string) (size : Z)
| InfoDir (name : string) (listing : option (list FileInfo)).

(** Go's [error] values that the sender tells apart. *)
Inductive error :=
| EOF          (* io.EOF *)
| ErrInvalid   (* os.ErrInvalid: a method called on a nil *os.File *)
| ErrIO.       (* any other read error *)

(** An open [*os.File]: the bytes not yet read, and, when the file is going
    to fail, the number of [Read] calls that still succeed before the
    failing one. *)
Record Handle := mkHandle {
  h_data : list byte;
  h_fault : option nat
}.

(** The world the program runs in. *)
Record World := mkWorld {
  net_Connect : bool;                       (* does ncclient.Connect succeed *)
  ReadDir_root : option (list FileInfo);    (* ioutil.ReadDir of the root *)
  os_Open : path -> option Handle           (* os.Open, [None] on error *)
}.

(** [Read(b)] of an [os.File], with [len(b) = size]: the number of bytes read, the
    bytes themselves ([b[:n]]), the error, and the file afterwards.  A nil
    file answers [ErrInvalid]; a zero-length buffer reads nothing and
    reports no error; at the end of the file the answer is [(0, io.EOF)]. *)
Definition File_Read (fp : option Handle) (size : nat)
  : nat * list byte * option error * option Handle :=
  match fp with
  | None => (0, [], Some ErrInvalid, None)
  | Some h =>
      match h_fault h with
      | Some 0 => (0, [], Some ErrIO, fp)
      | _ =>
          let fp' := Some {| h_data := drop size (h_data h);
                             h_fault := pred <$> h_fault h |} in
          match size, h_data h with
          | 0, _ => (0, [], None, fp')
          | _, [] => (0, [], Some EOF, fp)
          | _, _ =>
              let buf := take size (h_data h) in
              (length buf, buf, None, fp')
          end
      end
  end.

(** ** ncproto helpers *)

(** Modelled from the spec: [File.FullFilePath] of package ncproto, which is
    not in the source tree; the spec gives
    [root/descriptor.relativePath/descriptor.name]. *)
Definition FullFilePath (file : File) (conf : Config) : path :=
  WorkingDirectory conf ++ RelativePath file ++ [Name file].

(** Modelled from the spec: [File.RelativeFilePath] of package ncproto, the
    descriptor's path relative to the source root. *)
Definition RelativeFilePath (file : File) (conf : Config) : path :=
  RelativePath file ++ [Name file].

(** Modelled from the spec: [File.GetProgress] of package ncproto, the
    progress reporter of section 4.6: the number of filled segments out of
    [barWidth] for the bytes sent so far, and the bar with that many
    segments filled. *)
Definition GetProgress (file : File) (chunksSent barWidth : nat) (conf : Config)
  : string * nat :=
  let sent := Z.of_nat (chunksSent * ReadBufferSize conf) in
  let bucket :=
    if (FileSize file <=? 0)%Z then barWidth
    else Nat.min barWidth (Z.to_nat (sent * Z.of_nat barWidth / FileSize file)) in
  (String.concat "" (replicate bucket "#"%string ++
                     replicate (barWidth - bucket) " "%string), bucket).

(** ** File enumeration: [collectFiles] *)

(** The state [collectFiles] works on: the [uuid] supply, the list [files]
    it pushes descriptors on, and what it has written to stderr. *)
Record Collected := mkCollected {
  next_uuid : UUID;
  files : list File;
  collect_err : list Out
}.

Section Enumerate.
Variable conf : Config.

(** The body of the [range] loop for an entry that is not a directory
    (lines 159-172). *)
Definition collect_entry (dir : path) (name : string) (size : Z)
           (st : Collected) : Collected :=
  match Rel (WorkingDirectory conf) dir with
  | None =>
      {| next_uuid := next_uuid st; files := files st;
         collect_err := collect_err st ++ [ErrRel (WorkingDirectory conf) dir] |}
  | Some rel =>
      let nf := {| ID := next_uuid st;
                   FConnectionID := ConnectionID conf;
                   FileSize := size;
                   Name := name;
                   RelativePath := rel |} in
      {| next_uuid := S (next_uuid st);
         files := files st ++ [nf];
         collect_err := collect_err st |}
  end.

(** [collectFiles(dir, files)] once [ioutil.ReadDir(dir)] has answered
    [listing], with the loop body [visit] for one entry.  On an error the
    message is printed and [fs] is nil, so the loop does not run. *)
Definition collectFiles_with (visit : path -> FileInfo -> Collected -> Collected)
           (dir : path) (listing : option (list FileInfo)) (st : Collected)
  : Collected :=
  match listing with
  | None =>
      {| next_uuid := next_uuid st; files := files st;
         collect_err := collect_err st ++ [ErrReadDir dir] |}
  | Some fs => fold_left (fun st v => visit dir v st) fs st
  end.

(** One iteration of the [range] loop of [collectFiles(dir, files)]. *)
Fixpoint visit (dir : path) (v : FileInfo) (st : Collected) {struct v}
  : Collected :=
  match v with
  | InfoDir name listing => collectFiles_with visit (Join dir name) listing st
  | InfoFile name size => collect_entry dir name size st
  end.

Definition collectFiles (dir : path) (listing : option (list FileInfo))
           (st : Collected) : Collected :=
  collectFiles_with visit dir listing st.
End Enumerate.

(** ** The per-file sender: [sendFile] *)

(** What one step of a sender does to the outside: a message handed to
    [cln.SendMessage], or a line on the console. *)
Inductive Effect :=
| Emit (m : Frame)
| Print (o : Out).

(** Where a running [sendFile] stands: before [os.Open] (line 103), at the
    head of the read loop (line 117) with its local variables, or returned. *)
Inductive SenderPC :=
| AtOpen
| AtRead (fp : option Handle) (sentChunks lastPercentage : nat)
| Returned.

Definition is_EOF (err : option error) : bool :=
  match err with Some EOF => true | _ => false end.

Definition is_other_error (err : option error) : bool :=
  match err with Some EOF | None => false | Some _ => true end.

Section Sender.
Variable conf : Config.
Variable w : World.

(** One step of [sendFile(cln, file, wg)]: from [AtOpen], lines 103-116 (the
    header line, [os.Open], the error message when it fails, the File
    message); from [AtRead], one iteration of the loop of lines 117-144, or
    the exit of the loop with line 146.  A step that reaches [Returned] is
    followed by the deferred [wg.Done()], which the scheduler below
    performs. *)
Definition sendFile_step (file : File) (pc : SenderPC)
  : option (SenderPC * list Effect) :=
  match pc with
  | AtOpen =>
      let fp := os_Open w (FullFilePath file conf) in
      Some (AtRead fp 0 0,
            [Print (OutFileHeader (RelativeFilePath file conf) (FileSize file))]
            ++ match fp with
               | None => [Print (ErrOpening (RelativeFilePath file conf))]
               | Some _ => []
               end
            ++ [Emit (MsgFile file)])
  | AtRead fp sentChunks lastPercentage =>
      let '(n, buf, err, fp') := File_Read fp (ReadBufferSize conf) in
      if Nat.eqb n 0 && is_EOF err then
        Some (Returned, [Print OutBarDone])
      else if is_other_error err then
        Some (Returned,
              [Print (ErrReadingFile (RelativeFilePath file conf));
               Print OutBarDone])
      else
        let fchunk := {| CID := ID file;
                         CConnectionID := ConnectionID conf;
                         Data := buf;
                         Seq := sentChunks |} in
        let '(bar, progress) := GetProgress file sentChunks 25 conf in
        if Nat.ltb lastPercentage progress then
          Some (AtRead fp' (S sentChunks) progress,
                [Print (OutBar bar); Emit (MsgFileChunk fchunk)])
        else
          Some (AtRead fp' (S sentChunks) lastPercentage,
                [Emit (MsgFileChunk fchunk)])
  | Returned => None
  end.

(** [sendFile] run on its own until it returns, at most [fuel] steps: all
    its effects in order, or [None] when the fuel runs out first. *)
Fixpoint sendFile_from (fuel : nat) (file : File) (pc : SenderPC)
  : option (list Effect) :=
  match fuel with
  | 0 => None
  | S fuel' =>
      match sendFile_step file pc with
      | None => Some []
      | Some (pc', eff) =>
          match sendFile_from fuel' file pc' with
          | None => None
          | Some rest => Some (eff ++ rest)
          end
      end
  end.

Definition sendFile (fuel : nat) (file : File) : option (list Effect) :=
  sendFile_from fuel file AtOpen.

(** ** The session: [sendCmd.RunE] and its goroutines *)

Inductive Actor :=
| Main
| Sender (i : nat).

(** What an observer of the whole process sees, in order. *)
Inductive Event :=
| EvSend (a : Actor) (m : Frame)          (* cln.SendMessage(m) by [a] *)
| EvOut (a : Actor) (o : Out)             (* console output of [a] *)
| EvGo (i round : nat) (file : File)      (* go sendFile(cln, &file, &wg) *)
| EvDone (i : nat)                        (* sender [i] returns: wg.Done() *)
| EvConnClose.                            (* cln.Connection.Close() *)

(** Where the main goroutine stands in [RunE]. *)
Inductive MainPC :=
| AtConnect          (* line 56 *)
| AtSendConfig       (* line 63 *)
| AtCollect          (* lines 65-68 *)
| AtRound            (* lines 69-70: a new round with a new WaitGroup *)
| AtInner (i : N)    (* line 71: the test [i < conf.Threads] *)
| AtWait             (* lines 87-90 *)
| AtSendClose        (* lines 93-96 *)
| AtReturn           (* line 98 and the deferred Close of line 61 *)
| Exited (ok : bool) (* RunE has returned; [false]: with the Connect error *)
| Panicked.          (* sync: negative WaitGroup counter *)

(** A goroutine started by [go sendFile(cln, &file, &wg)]: its file, the
    round whose WaitGroup it holds, and where it stands. *)
Record Goroutine := mkGoroutine {
  g_file : File;
  g_round : nat;
  g_pc : SenderPC
}.

Record State := mkState {
  pc : MainPC;
  queue : list File;        (* [files], the container/list *)
  breakAll : bool;
  wgs : list nat;           (* the counter of the WaitGroup of each round *)
  senders : list Goroutine; (* in the order they were started *)
  trace : list Event
}.

Definition initial : State :=
  {| pc := AtConnect; queue := []; breakAll := false; wgs := [];
     senders := []; trace := [] |}.

(** The round in progress and the counter of its WaitGroup. *)
Definition cur_round (s : State) : nat := pred (length (wgs s)).
Definition wg_counter (s : State) (r : nat) : nat := default 0 (wgs s !! r).

Definition effect_event (a : Actor) (e : Effect) : Event :=
  match e with
  | Emit m => EvSend a m
  | Print o => EvOut a o
  end.

Definition uint16_succ (i : N) : N := ((i + 1) mod 65536)%N.

(** One atomic action of the main goroutine; [None] when it cannot move
    (blocked in [wg.Wait()], or the process has ended). *)
Definition main_step (s : State) : option State :=
  match pc s with
  | AtConnect =>
      if net_Connect w
      then Some (mkState AtSendConfig (queue s) (breakAll s) (wgs s) (senders s) (trace s))
      else Some (mkState (Exited false) (queue s) (breakAll s) (wgs s) (senders s) (trace s))
  | AtSendConfig =>
      Some (mkState AtCollect (queue s) (breakAll s) (wgs s) (senders s)
              (trace s ++ [EvSend Main (MsgConfig conf)]))
  | AtCollect =>
      let st := collectFiles conf (WorkingDirectory conf) (ReadDir_root w)
                  {| next_uuid := S (ConnectionID conf); files := [];
                     collect_err := [] |} in
      Some (mkState AtRound (files st) false (wgs s) (senders s)
              (trace s ++ map (EvOut Main) (collect_err st)))
  | AtRound =>
      Some (mkState (AtInner 0) (queue s) (breakAll s) (wgs s ++ [0]) (senders s)
              (trace s))
  | AtInner i =>
      if (i <? Threads conf)%N then
        (* wg.Add(1) *)
        match queue s with
        | [] =>
            (* breakAll = true; wg.Done(); break *)
            Some (mkState AtWait [] true (wgs s) (senders s) (trace s))
        | file :: rest =>
            (* files.Remove(e); go sendFile(cln, &file, &wg) *)
            let r := cur_round s in
            Some (mkState (AtInner (uint16_succ i)) rest (breakAll s)
                    (<[r := S (wg_counter s r)]> (wgs s))
                    (senders s ++ [mkGoroutine file r AtOpen])
                    (trace s ++ [EvGo (length (senders s)) r file]))
        end
      else
        Some (mkState AtWait (queue s) (breakAll s) (wgs s) (senders s) (trace s))
  | AtWait =>
      match wg_counter s (cur_round s) with
      | 0 =>
          if breakAll s
          then Some (mkState AtSendClose (queue s) (breakAll s) (wgs s) (senders s) (trace s))
          else Some (mkState AtRound (queue s) (breakAll s) (wgs s) (senders s) (trace s))
      | S _ => None
      end
  | AtSendClose =>
      Some (mkState AtReturn (queue s) (breakAll s) (wgs s) (senders s)
              (trace s ++ [EvOut Main OutClosing;
                           EvSend Main (MsgConnectionClose (ConnectionID conf))]))
  | AtReturn =>
      Some (mkState (Exited true) (queue s) (breakAll s) (wgs s) (senders s)
              (trace s ++ [EvConnClose]))
  | Exited _ | Panicked => None
  end.

(** One step of sender [i]; when the step returns from [sendFile], the
    deferred [wg.Done()] decrements the WaitGroup of the sender's round, and
    panics on a counter that is already zero. *)
Definition sender_step (i : nat) (s : State) : option State :=
  match pc s with
  | Exited _ | Panicked => None
  | _ =>
      match senders s !! i with
      | None => None
      | Some g =>
          match sendFile_step (g_file g) (g_pc g) with
          | None => None
          | Some (pc', eff) =>
              let g' := mkGoroutine (g_file g) (g_round g) pc' in
              let tr := trace s ++ map (effect_event (Sender i)) eff in
              match pc' with
              | Returned =>
                  match wg_counter s (g_round g) with
                  | 0 => Some (mkState Panicked (queue s) (breakAll s) (wgs s)
                                 (<[i := g']> (senders s)) tr)
                  | S c => Some (mkState (pc s) (queue s) (breakAll s)
                                   (<[g_round g := c]> (wgs s))
                                   (<[i := g']> (senders s))
                                   (tr ++ [EvDone i]))
                  end
              | _ => Some (mkState (pc s) (queue s) (breakAll s) (wgs s)
                             (<[i := g']> (senders s)) tr)
              end
          end
      end
  end.

Definition step (a : Actor) (s : State) : option State :=
  match a with
  | Main => main_step s
  | Sender i => sender_step i s
  end.

(** A run under a schedule: the actors move in the order of the list; the
    run is [None] when the schedule picks an actor that cannot move. *)
Fixpoint exec (sched : list Actor) (s : State) : option State :=
  match sched with
  | [] => Some s
  | a :: sched' =>
      match step a s with
      | None => None
      | Some s' => exec sched' s'
      end
  end.

Definition run (sched : list Actor) : option State := exec sched initial.

End Sender.

(** ** Observations on a trace *)

(** The messages on the wire, in order. *)
Fixpoint wire (tr : list Event) : list Frame :=
  match tr with
  | [] => []
  | EvSend _ m :: tr' => m :: wire tr'
  | _ :: tr' => wire tr'
  end.

(** * Properties *)

(** ** File enumeration *)

(** Induction on a directory tree, with the hypothesis for every entry of a
    listing. *)
Lemma FileInfo_tree_ind (P : FileInfo -> Prop) :
  (forall name size, P (InfoFile name size)) ->
  (forall name, P (InfoDir name None)) ->
  (forall name fs, Forall P fs -> P (InfoDir name (Some fs))) ->
  forall v, P v.
Proof.
  intros Hfile Hnone Hsome.
  fix IH 1. intros [name size | name [fs |]].
  - apply Hfile.
  - apply Hsome. induction fs as [| v fs IHfs]; constructor; [apply IH | exact IHfs].
  - apply Hnone.
Qed.

(** The spec's side of the enumeration: the entries that are not directories
    in the readable part of the tree, each with its path relative to the
    root, in directory-listing order. *)
Fixpoint regular_files_entry (rel : path) (v : FileInfo) : list (path * string * Z) :=
  match v with
  | InfoFile name size => [(rel, name, size)]
  | InfoDir name None => []
  | InfoDir name (Some fs) => concat (map (regular_files_entry (rel ++ [name])) fs)
  end.

Definition regular_files (rel : path) (listing : option (list FileInfo))
  : list (path * string * Z) :=
  match listing with
  | None => []
  | Some fs => concat (map (regular_files_entry rel) fs)
  end.


(** The directories of the tree that cannot be read, in the order they are
    met. *)
Fixpoint unreadable_entry (dir : path) (v : FileInfo) : list path :=
  match v with
  | InfoFile _ _ => []
  | InfoDir name None => [dir ++ [name]]
  | InfoDir name (Some fs) => concat (map (unreadable_entry (dir ++ [name])) fs)
  end.

Definition unreadable (dir : path) (listing : option (list FileInfo)) : list path :=
  match listing with
  | None => [dir]
  | Some fs => concat (map (unreadable_entry dir) fs)
  end.

(** The descriptors built for a list of entries, with identifiers taken from
    [n] on. *)
Fixpoint descriptors (cid n : UUID) (l : list (path * string * Z)) : list File :=
  match l with
  | [] => []
  | (rel, name, size) :: l' =>
      {| ID := n; FConnectionID := cid; FileSize := size; Name := name;
         RelativePath := rel |} :: descriptors cid (S n) l'
  end.

Lemma descriptors_app cid n l1 l2 :
  descriptors cid n (l1 ++ l2)
  = descriptors cid n l1 ++ descriptors cid (n + length l1) l2.
Proof.
  revert n. induction l1 as [| [[rel name] size] l1 IH]; intros n; simpl.
  - by rewrite Nat.add_0_r.
  - rewrite IH. do 3 f_equal. lia.
Qed.


Lemma descriptors_ids cid n l :
  map ID (descriptors cid n l) = seq n (length l).
Proof.
  revert n. induction l as [| [[rel name] size] l IH]; intros n; simpl; [done |].
  by rewrite IH.
Qed.

Lemma Rel_below (base rel : path) : Rel base (base ++ rel) = Some rel.
Proof.
  induction base as [| b base IH]; simpl; [by destruct rel |].
  by rewrite String.eqb_refl.
Qed.

(** What [collectFiles] does to its state, for a directory [root ++ rel]. *)
Definition collected (conf : Config) (st : Collected)
           (found : list (path * string * Z)) (errs : list path) : Collected :=
  {| next_uuid := next_uuid st + length found;
     files := files st ++ descriptors (ConnectionID conf) (next_uuid st) found;
     collect_err := collect_err st ++ map ErrReadDir errs |}.

Lemma collected_nil conf st : collected conf st [] [] = st.
Proof.
  destruct st as [n fl er]. unfold collected; simpl.
  by rewrite Nat.add_0_r, !app_nil_r.
Qed.

Lemma collected_app conf st f1 e1 f2 e2 :
  collected conf (collected conf st f1 e1) f2 e2
  = collected conf st (f1 ++ f2) (e1 ++ e2).
Proof.
  unfold collected; simpl. f_equal.
  - rewrite length_app. lia.
  - by rewrite descriptors_app, app_assoc.
  - by rewrite map_app, app_assoc.
Qed.

Lemma fold_visit_collected conf rel fs :
  Forall (fun v => forall rel st,
            visit conf (WorkingDirectory conf ++ rel) v st
            = collected conf st (regular_files_entry rel v)
                (unreadable_entry (WorkingDirectory conf ++ rel) v)) fs ->
  forall st,
    fold_left (fun st v => visit conf (WorkingDirectory conf ++ rel) v st) fs st
    = collected conf st (concat (map (regular_files_entry rel) fs))
        (concat (map (unreadable_entry (WorkingDirectory conf ++ rel)) fs)).
Proof.
  induction 1 as [| v fs Hv _ IH]; intros st; simpl.
  - by rewrite collected_nil.
  - by rewrite Hv, IH, collected_app.
Qed.

Lemma visit_collected conf v :
  forall rel st,
    visit conf (WorkingDirectory conf ++ rel) v st
    = collected conf st (regular_files_entry rel v)
        (unreadable_entry (WorkingDirectory conf ++ rel) v).
Proof.
  induction v as [name size | name | name fs IH] using FileInfo_tree_ind;
    intros rel st.
  - simpl. unfold collect_entry. rewrite Rel_below.
    unfold collected; simpl. f_equal; [lia | by rewrite app_nil_r].
  - simpl. unfold collected, Join; simpl. f_equal; [lia | by rewrite app_nil_r].
  - simpl. unfold Join. rewrite <- (assoc_L (++)).
    apply fold_visit_collected, IH.
Qed.

Lemma collectFiles_collected conf rel listing st :
  collectFiles conf (WorkingDirectory conf ++ rel) listing st
  = collected conf st (regular_files rel listing)
      (unreadable (WorkingDirectory conf ++ rel) listing).
Proof.
  destruct listing as [fs |]; simpl.
  - apply fold_visit_collected, Forall_forall. intros v _. apply visit_collected.
  - unfold collected; simpl. f_equal; [lia | by rewrite app_nil_r].
Qed.



(** The descriptors [RunE] gets from [collectFiles] (lines 65-66). *)
Definition enumerate (conf : Config) (w : World) : Collected :=
  collectFiles conf (WorkingDirectory conf) (ReadDir_root w)
    {| next_uuid := S (ConnectionID conf); files := []; collect_err := [] |}.


(** ** One sender on its own *)

(** The messages and the chunks among the effects of a sender. *)
Definition emitted (effs : list Effect) : list Frame :=
  omap (fun e => match e with Emit m => Some m | Print _ => None end) effs.

Definition chunks_of (ms : list Frame) : list FileChunk :=
  omap (fun m => match m with MsgFileChunk c => Some c | _ => None end) ms.

Definition reported_read_error (effs : list Effect) : Prop :=
  exists rel, In (Print (ErrReadingFile rel)) effs.

Definition reported_open_error (effs : list Effect) : Prop :=
  exists rel, In (Print (ErrOpening rel)) effs.

Lemma emitted_app effs1 effs2 : emitted (effs1 ++ effs2) = emitted effs1 ++ emitted effs2.
Proof. apply omap_app. Qed.

Lemma chunks_of_app ms1 ms2 : chunks_of (ms1 ++ ms2) = chunks_of ms1 ++ chunks_of ms2.
Proof. apply omap_app. Qed.


Section SenderAlone.
Variable conf : Config.
Variable w : World.

(** [sender_reach file pc effs]: a [sendFile] started on [file] can stand at
    [pc] having produced the effects [effs]. *)
Inductive sender_reach (file : File) : SenderPC -> list Effect -> Prop :=
| reach_start : sender_reach file AtOpen []
| reach_step pc effs pc' eff :
    sender_reach file pc effs ->
    sendFile_step conf w file pc = Some (pc', eff) ->
    sender_reach file pc' (effs ++ eff).

(** The chunks a sender has emitted after its File message: numbered from 0
    without a gap, tagged with the file and the connection, none longer than
    the read buffer, and all of them but the last exactly as long. *)
Definition sent_chunks (file : File) (effs : list Effect)
           (chunks : list FileChunk) : Prop :=
  emitted effs = MsgFile file :: map MsgFileChunk chunks
  /\ map Seq chunks = seq 0 (length chunks)
  /\ Forall (fun c => CID c = ID file /\ CConnectionID c = ConnectionID conf
                      /\ length (Data c) <= ReadBufferSize conf) chunks
  /\ (forall i c, chunks !! i = Some c -> S i < length chunks ->
                  length (Data c) = ReadBufferSize conf).

(** What holds of a sender at each point of [sendFile]. *)
Definition sender_inv (file : File) (pc : SenderPC) (effs : list Effect) : Prop :=
  match pc with
  | AtOpen => effs = []
  | AtRead fp sentChunks _ =>
      exists chunks,
        sent_chunks file effs chunks
        /\ length chunks = sentChunks
        /\ ~ reported_read_error effs
        /\ match os_Open w (FullFilePath file conf), fp with
           | None, None => chunks = [] /\ reported_open_error effs
           | Some h0, Some h =>
               h_data h0 = concat (map Data chunks) ++ h_data h
               /\ h_fault h = (fun k => k - sentChunks) <$> h_fault h0
               /\ (forall k, h_fault h0 = Some k -> sentChunks <= k)
               /\ (forall c, list.last chunks = Some c ->
                             length (Data c) < ReadBufferSize conf ->
                             h_data h = [])
               /\ ~ reported_open_error effs
           | _, _ => False
           end
  | Returned =>
      exists chunks,
        sent_chunks file effs chunks
        /\ match os_Open w (FullFilePath file conf) with
           | None =>
               chunks = [] /\ reported_open_error effs
               /\ reported_read_error effs
           | Some h0 =>
               exists rest,
                 h_data h0 = concat (map Data chunks) ++ rest
                 /\ (reported_read_error effs -> h_fault h0 = Some (length chunks))
                 /\ (~ reported_read_error effs -> rest = [])
                 /\ ~ reported_open_error effs
           end
  end.

Lemma reported_read_error_app effs1 effs2 :
  reported_read_error (effs1 ++ effs2)
  <-> reported_read_error effs1 \/ reported_read_error effs2.
Proof.
  unfold reported_read_error. split.
  - intros (rel & [H | H]%in_app_iff); eauto.
  - intros [(rel & H) | (rel & H)]; exists rel; apply in_app_iff; auto.
Qed.

Lemma reported_open_error_app effs1 effs2 :
  reported_open_error (effs1 ++ effs2)
  <-> reported_open_error effs1 \/ reported_open_error effs2.
Proof.
  unfold reported_open_error. split.
  - intros (rel & [H | H]%in_app_iff); eauto.
  - intros [(rel & H) | (rel & H)]; exists rel; apply in_app_iff; auto.
Qed.

Lemma sent_chunks_prints file effs chunks outs :
  sent_chunks file effs chunks ->
  sent_chunks file (effs ++ map Print outs) chunks.
Proof.
  intros (He & Hrest). split; [| done].
  rewrite emitted_app, He.
  assert (emitted (map Print outs) = []) as ->; [| by rewrite app_nil_r].
  by induction outs.
Qed.

(** One more chunk, read from a file that still had [data] to give. *)
Lemma sent_chunks_snoc file effs chunks outs (data : list byte) sentChunks :
  sent_chunks file effs chunks ->
  length chunks = sentChunks ->
  length data <= ReadBufferSize conf ->
  (forall c, list.last chunks = Some c -> length (Data c) = ReadBufferSize conf) ->
  sent_chunks file
    (effs ++ map Print outs
          ++ [Emit (MsgFileChunk {| CID := ID file;
                                    CConnectionID := ConnectionID conf;
                                    Data := data; Seq := sentChunks |})])
    (chunks ++ [{| CID := ID file; CConnectionID := ConnectionID conf;
                   Data := data; Seq := sentChunks |}]).
Proof.
  intros Hs Hlen Hdata Hlast.
  rewrite (assoc_L (++)).
  apply (sent_chunks_prints _ _ _ outs) in Hs.
  destruct Hs as (He & Hseq & Hall & Hfull).
  repeat split.
  - rewrite emitted_app, He. simpl. by rewrite map_app.
  - rewrite map_app, length_app, Hseq, Nat.add_1_r, seq_S. simpl. by rewrite Hlen.
  - apply Forall_app. split; [done |]. by repeat constructor.
  - intros i c Hi Hlt. rewrite length_app in Hlt. simpl in Hlt.
    rewrite lookup_app_l in Hi by lia.
    destruct (decide (S i = length chunks)) as [Heq | Hne].
    + apply Hlast. rewrite last_lookup, <- Heq. exact Hi.
    + apply (Hfull i c Hi). lia.
Qed.

(** Goals of the form [~ reported_..._error [e1; ...; en]]. *)
Ltac not_reported :=
  let rel := fresh "rel" in
  let Hin := fresh "Hin" in
  intros (rel & Hin); simpl in Hin;
  repeat (destruct Hin as [Hin | Hin]; [discriminate |]); destruct Hin.

(** The three ways one iteration of the read loop can go. *)
Lemma sendFile_step_AtRead file fp sentChunks lastPercentage pc' eff :
  sendFile_step conf w file (AtRead fp sentChunks lastPercentage) = Some (pc', eff) ->
  exists n buf err fp',
    File_Read fp (ReadBufferSize conf) = (n, buf, err, fp')
    /\ ((n = 0 /\ err = Some EOF /\ pc' = Returned /\ eff = [Print OutBarDone])
        \/ (is_other_error err = true /\ pc' = Returned
            /\ eff = [Print (ErrReadingFile (RelativeFilePath file conf));
                      Print OutBarDone])
        \/ (is_other_error err = false /\ ~ (n = 0 /\ err = Some EOF)
            /\ exists outs last',
                pc' = AtRead fp' (S sentChunks) last'
                /\ (outs = [] \/ exists bar, outs = [OutBar bar])
                /\ eff = map Print outs
                         ++ [Emit (MsgFileChunk {| CID := ID file;
                                                   CConnectionID := ConnectionID conf;
                                                   Data := buf;
                                                   Seq := sentChunks |})])).
Proof.
  unfold sendFile_step.
  destruct (File_Read fp (ReadBufferSize conf)) as [[[n buf] err] fp'] eqn:Hread.
  intros Hstep. exists n, buf, err, fp'. split; [done |].
  destruct (Nat.eqb n 0 && is_EOF err) eqn:Heof.
  - left. apply andb_prop in Heof as [Hn Herr]. apply Nat.eqb_eq in Hn.
    destruct err as [[] |]; try discriminate. by simplify_eq.
  - destruct (is_other_error err) eqn:Hother.
    + right; left. by simplify_eq.
    + right; right. split; [done |]. split.
      { intros [-> ->]. discriminate. }
      destruct (GetProgress file sentChunks 25 conf) as [bar progress].
      destruct (Nat.ltb lastPercentage progress); simplify_eq.
      * exists [OutBar bar], progress. eauto.
      * exists [], lastPercentage. eauto.
Qed.

Lemma sender_inv_step file pc effs pc' eff :
  sender_inv file pc effs ->
  sendFile_step conf w file pc = Some (pc', eff) ->
  sender_inv file pc' (effs ++ eff).
Proof.
  destruct pc as [| fp sentChunks lastPercentage |]; [| | done].
  - (* os.Open and the File message *)
    intros -> [= <- <-]. simpl. exists [].
    destruct (os_Open w (FullFilePath file conf)) as [h0 |] eqn:Hopen.
    + repeat split; simpl; try done.
      * not_reported.
      * by destruct (h_fault h0) as [k |]; simpl; [rewrite Nat.sub_0_r |].
      * lia.
      * not_reported.
    + repeat split; simpl; try done.
      * not_reported.
      * eexists. right. by left.
  - (* one iteration of the read loop *)
    intros (chunks & Hsent & Hlen & Hnoerr & Hfile) Hstep.
    apply sendFile_step_AtRead in Hstep
      as (n & buf & err & fp' & Hread & Hcases).
    destruct (os_Open w (FullFilePath file conf)) as [h0 |] eqn:Hopen;
      destruct fp as [h |]; try done.
    + destruct Hfile as (Hdata & Hfault & Hle & Hshort & Hnoopen).
      unfold File_Read in Hread.
      destruct Hcases as [(-> & -> & -> & ->) | [(Hother & -> & ->) | (Hother & Hneof & outs & last' & -> & Houts & ->)]].
      * (* end of file *)
        exists chunks. split; [by apply (sent_chunks_prints _ _ _ [OutBarDone]) |].
        simpl. rewrite Hopen. exists (h_data h).
        assert (h_data h = []) as Hnil.
        { destruct (h_fault h) as [[| k] |]; simplify_eq;
            destruct (ReadBufferSize conf), (h_data h); by simplify_eq. }
        repeat split; try done.
        -- intros [Herr | Herr]%reported_read_error_app; [done |].
           revert Herr. not_reported.
        -- intros [H | H]%reported_open_error_app; [done |].
           revert H. not_reported.
      * (* a read error *)
        exists chunks.
        split; [by apply (sent_chunks_prints _ _ _ [ErrReadingFile _; OutBarDone]) |].
        simpl. rewrite Hopen. exists (h_data h).
        assert (h_fault h = Some 0) as Hzero.
        { destruct (h_fault h) as [[| k] |]; [done | |];
            destruct (ReadBufferSize conf), (h_data h); by simplify_eq. }
        repeat split; try done.
        -- intros _. rewrite Hzero in Hfault.
           destruct (h_fault h0) as [k |] eqn:Hk; [| done]. simpl in Hfault.
           specialize (Hle k eq_refl). f_equal. simplify_eq. lia.
        -- intros Hno. exfalso. apply Hno, reported_read_error_app. right.
           eexists. by left.
        -- intros [H | H]%reported_open_error_app; [done |].
           revert H. not_reported.
      * (* one more chunk *)
        assert (h_fault h <> Some 0) as Hnz.
        { intros Hz. rewrite Hz in Hread. by simplify_eq. }
        assert (buf = take (ReadBufferSize conf) (h_data h)
                /\ fp' = Some {| h_data := drop (ReadBufferSize conf) (h_data h);
                                 h_fault := pred <$> h_fault h |}
                /\ (ReadBufferSize conf = 0 \/ h_data h <> [])) as (-> & -> & Hsome).
        { destruct (h_fault h) as [[| k] |]; [done | |];
            destruct (ReadBufferSize conf) as [| b], (h_data h) as [| x data];
            simplify_eq; try done; try (repeat split; (by left) || (by right) || done);
            exfalso; by apply Hneof. }
        eexists. split.
        { apply sent_chunks_snoc; [done | done | rewrite length_take; lia |].
          intros c Hc. destruct Hsent as (_ & _ & Hall & _).
          rewrite Forall_forall in Hall.
          destruct (Hall c) as (_ & _ & Hcle).
          { apply list_elem_of_In. rewrite last_lookup in Hc.
            by eapply list_elem_of_lookup_2. }
          destruct (decide (length (Data c) < ReadBufferSize conf)) as [Hlt | ?]; [| lia].
          destruct Hsome as [Hb | Hne]; [lia |]. by apply Hshort in Hlt. }
        rewrite length_app, Hlen, Nat.add_1_r. split; [done |]. split.
        { intros [Herr | Herr]%reported_read_error_app; [done |].
          destruct Herr as (rel & [Hin | [Hin | []]]%in_app_iff); [| discriminate].
          destruct Houts as [-> | [bar ->]]; [done |].
          destruct Hin as [Hin | []]. discriminate. }
        rewrite Hopen. simpl. repeat split.
        -- rewrite map_app, concat_app, <- (assoc_L (++)). simpl.
           by rewrite app_nil_r, take_drop.
        -- rewrite Hfault. destruct (h_fault h0) as [k |]; simpl; [f_equal; lia | done].
        -- intros k Hk. specialize (Hle k Hk). rewrite Hk in Hfault. simpl in Hfault.
           rewrite Hfault in Hnz. destruct (decide (k = sentChunks)); [| lia].
           subst. by rewrite Nat.sub_diag in Hnz.
        -- intros c. rewrite last_snoc. intros [= <-]. simpl.
           rewrite length_take. intros Hlt. apply drop_ge. lia.
        -- intros [H | H]%reported_open_error_app; [done |].
           destruct H as (rel & [Hin | [Hin | []]]%in_app_iff); [| discriminate].
           destruct Houts as [-> | [bar ->]]; [done |].
           destruct Hin as [Hin | []]. discriminate.
    + (* the file never opened: Read on a nil file *)
      destruct Hfile as (-> & Hopenerr). simpl in Hread. simplify_eq.
      destruct Hcases as [(_ & ? & _) | [(_ & -> & ->) | (? & _)]]; try done.
      exists []. split; [by apply (sent_chunks_prints _ _ _ [ErrReadingFile _; OutBarDone]) |].
      simpl. rewrite Hopen. repeat split.
      * apply reported_open_error_app. by left.
      * apply reported_read_error_app. right. eexists. by left.
Qed.

Lemma sender_reach_inv file pc effs :
  sender_reach file pc effs -> sender_inv file pc effs.
Proof.
  induction 1 as [| pc effs pc' eff _ IH Hstep]; [done |].
  by eapply sender_inv_step.
Qed.

(** A sender emits its File message first and chunks of its file after it,
    and nothing else. *)
Lemma sender_reach_emitted file pc effs :
  sender_reach file pc effs ->
  emitted effs = []
  \/ exists chunks, sent_chunks file effs chunks.
Proof.
  intros Hinv%sender_reach_inv. destruct pc; simpl in Hinv.
  - left. by subst.
  - right. destruct Hinv as (chunks & ? & _). by exists chunks.
  - right. destruct Hinv as (chunks & ? & _). by exists chunks.
Qed.

(** An upper bound on the steps a sender still takes, when the read buffer
    is not empty. *)
Definition sender_measure (file : File) (pc : SenderPC) : nat :=
  match pc with
  | AtOpen =>
      match os_Open w (FullFilePath file conf) with
      | Some h0 => 2 + length (h_data h0)
      | None => 2
      end
  | AtRead (Some h) _ _ => 1 + length (h_data h)
  | AtRead None _ _ => 1
  | Returned => 0
  end.

Lemma sender_step_measure file pc pc' eff :
  0 < ReadBufferSize conf ->
  sendFile_step conf w file pc = Some (pc', eff) ->
  sender_measure file pc' < sender_measure file pc.
Proof.
  intros Hb. destruct pc as [| fp sentChunks lastPercentage |]; [| | done].
  - intros [= <- <-]. simpl. destruct (os_Open w _); simpl; lia.
  - intros Hstep. apply sendFile_step_AtRead in Hstep
      as (n & buf & err & fp' & Hread & Hcases).
    destruct Hcases as [(_ & _ & -> & _) | [(_ & -> & _) | (Hother & Hneof & outs & last' & -> & _)]].
    + destruct fp as [h |]; simpl; lia.
    + destruct fp as [h |]; simpl; lia.
    + destruct fp as [h |]; simpl in Hread; [| by simplify_eq].
      destruct (h_fault h) as [[| k] |]; [by simplify_eq | |];
        destruct (ReadBufferSize conf) as [| b]; try lia;
        destruct (h_data h) as [| x data] eqn:Hdata; simplify_eq;
        try (exfalso; by apply Hneof);
        simpl; rewrite Hdata, length_drop; simpl; lia.
Qed.

Lemma sendFile_step_Some file pc :
  pc <> Returned -> is_Some (sendFile_step conf w file pc).
Proof.
  destruct pc as [| fp sentChunks lastPercentage |]; [by eexists | | done].
  intros _. unfold sendFile_step.
  destruct (File_Read fp (ReadBufferSize conf)) as [[[n buf] err] fp'].
  destruct (Nat.eqb n 0 && is_EOF err); [by eexists |].
  destruct (is_other_error err); [by eexists |].
  destruct (GetProgress file sentChunks 25 conf) as [bar progress].
  destruct (Nat.ltb lastPercentage progress); by eexists.
Qed.


(** A sender that can stand at [pc] and runs on from there to its return
    produces the effects of a complete run. *)
Lemma sendFile_from_reach file fuel pc effs rest :
  sender_reach file pc effs ->
  sendFile_from conf w fuel file pc = Some rest ->
  sender_reach file Returned (effs ++ rest).
Proof.
  revert pc effs rest. induction fuel as [| fuel IH]; intros pc effs rest Hreach;
    [done |].
  simpl. destruct (sendFile_step conf w file pc) as [[pc' eff] |] eqn:Hstep.
  - destruct (sendFile_from conf w fuel file pc') as [rest' |] eqn:Hrest; [| done].
    intros [= <-]. rewrite (assoc_L (++)). eapply IH; [| done].
    by eapply reach_step.
  - intros [= <-]. rewrite app_nil_r.
    destruct pc; [done | | done].
    by destruct (sendFile_step_Some file (AtRead fp sentChunks lastPercentage)) as [? ?];
      simplify_eq.
Qed.

Lemma sendFile_reach file fuel effs :
  sendFile conf w fuel file = Some effs -> sender_reach file Returned effs.
Proof. intros H. eapply (sendFile_from_reach _ _ _ []); [constructor | done]. Qed.

(** The steps of a sender are determined: two runs that both return have
    produced the same effects. *)
Lemma sender_reach_prefix file pc effs :
  sender_reach file pc effs ->
  forall fuel all, sendFile conf w fuel file = Some all ->
  exists fuel' rest, sendFile_from conf w fuel' file pc = Some rest
                     /\ all = effs ++ rest.
Proof.
  induction 1 as [| pc effs pc' eff _ IH Hstep]; intros fuel all Hall.
  - by exists fuel, all.
  - destruct (IH fuel all Hall) as (fuel' & rest & Hrest & ->).
    destruct fuel' as [| fuel']; [done |]. simpl in Hrest. rewrite Hstep in Hrest.
    destruct (sendFile_from conf w fuel' file pc') as [rest' |] eqn:Hrest'; [| done].
    simplify_eq. exists fuel', rest'. by rewrite (assoc_L (++)).
Qed.

Lemma sender_reach_Returned file effs fuel all :
  sender_reach file Returned effs ->
  sendFile conf w fuel file = Some all ->
  effs = all.
Proof.
  intros Hreach Hall.
  destruct (sender_reach_prefix _ _ _ Hreach _ _ Hall) as (fuel' & rest & Hrest & ->).
  destruct fuel'; [done |]. simpl in Hrest. simplify_eq. by rewrite app_nil_r.
Qed.

End SenderAlone.

(** ** The session as a whole *)

(** The effects of sender [i] among the events of a trace. *)
Definition effects_of (i : nat) (tr : list Event) : list Effect :=
  omap (fun e => match e with
                 | EvSend (Sender j) m => if decide (j = i) then Some (Emit m) else None
                 | EvOut (Sender j) o => if decide (j = i) then Some (Print o) else None
                 | _ => None
                 end) tr.

(** The messages sender [i] has put on the wire, and its chunks. *)
Definition sent_by (i : nat) (tr : list Event) : list Frame :=
  emitted (effects_of i tr).

(** File and FileChunk messages. *)
Definition is_data (m : Frame) : Prop :=
  match m with
  | MsgFile _ | MsgFileChunk _ => True
  | _ => False
  end.

Definition is_running (g : Goroutine) : bool :=
  match g_pc g with
  | Returned => false
  | _ => true
  end.

(** The goroutines of round [r] that have not returned. *)
Definition in_round (r : nat) (g : Goroutine) : nat :=
  if bool_decide (g_round g = r) && is_running g then 1 else 0.

Fixpoint running (r : nat) (l : list Goroutine) : nat :=
  match l with
  | [] => 0
  | g :: l' => in_round r g + running r l'
  end.

Lemma wire_app tr1 tr2 : wire (tr1 ++ tr2) = wire tr1 ++ wire tr2.
Proof.
  induction tr1 as [| e tr1 IH]; simpl; [done |].
  destruct e; simpl; by rewrite ?IH.
Qed.

Lemma wire_effects a eff : wire (map (effect_event a) eff) = emitted eff.
Proof.
  induction eff as [| e eff IH]; simpl; [done |].
  destruct e; simpl; by rewrite ?IH.
Qed.

Lemma wire_outs a outs : wire (map (EvOut a) outs) = [].
Proof. by induction outs. Qed.

Lemma effects_of_app i tr1 tr2 :
  effects_of i (tr1 ++ tr2) = effects_of i tr1 ++ effects_of i tr2.
Proof. apply omap_app. Qed.

Lemma effects_of_own i eff : effects_of i (map (effect_event (Sender i)) eff) = eff.
Proof.
  induction eff as [| e eff IH]; simpl; [done |].
  destruct e; simpl; rewrite decide_True by done; by rewrite <- IH at 2.
Qed.

Lemma effects_of_other i j eff :
  i <> j -> effects_of i (map (effect_event (Sender j)) eff) = [].
Proof.
  intros Hne. induction eff as [| e eff IH]; simpl; [done |].
  destruct e; simpl; by rewrite decide_False.
Qed.

Lemma effects_of_main i outs : effects_of i (map (EvOut Main) outs) = [].
Proof. by induction outs. Qed.

Lemma running_app r l1 l2 : running r (l1 ++ l2) = running r l1 + running r l2.
Proof. induction l1 as [| g l1 IH]; simpl; [done |]. rewrite IH. lia. Qed.

Lemma running_insert r l i g g' :
  l !! i = Some g ->
  running r (<[i := g']> l) + in_round r g = running r l + in_round r g'.
Proof.
  revert i. induction l as [| g0 l IH]; intros [| i] Hi; simpl in *; simplify_eq.
  - lia.
  - specialize (IH i Hi). lia.
Qed.

Lemma running_zero r l i g :
  running r l = 0 -> l !! i = Some g -> g_round g = r -> g_pc g = Returned.
Proof.
  revert i. induction l as [| g0 l IH]; intros [| i] Hrun Hi Hr; simpl in *;
    simplify_eq.
  - unfold in_round, is_running in Hrun. rewrite bool_decide_eq_true_2 in Hrun by done.
    destruct (g_pc g); simpl in Hrun; done || lia.
  - eapply IH; [lia | done | done].
Qed.

Lemma running_all_returned r l :
  (forall i g, l !! i = Some g -> g_pc g = Returned) -> running r l = 0.
Proof.
  induction l as [| g0 l IH]; intros Hall; simpl; [done |].
  rewrite IH by (intros i g Hi; by apply (Hall (S i))).
  unfold in_round, is_running. rewrite (Hall 0 g0 eq_refl).
  by rewrite andb_false_r.
Qed.

Section Session.
Variable conf : Config.
Variable w : World.

(** What a step of sender [i] is made of. *)
Lemma sender_step_Some i s s' :
  sender_step conf w i s = Some s' ->
  exists g pc' eff,
    senders s !! i = Some g
    /\ sendFile_step conf w (g_file g) (g_pc g) = Some (pc', eff)
    /\ (forall ok, pc s <> Exited ok) /\ pc s <> Panicked
    /\ let g' := mkGoroutine (g_file g) (g_round g) pc' in
       let tr := trace s ++ map (effect_event (Sender i)) eff in
       (pc' <> Returned
        /\ s' = mkState (pc s) (queue s) (breakAll s) (wgs s)
                  (<[i := g']> (senders s)) tr)
       \/ (pc' = Returned /\ wg_counter s (g_round g) = 0
           /\ s' = mkState Panicked (queue s) (breakAll s) (wgs s)
                     (<[i := g']> (senders s)) tr)
       \/ (pc' = Returned
           /\ exists c, wg_counter s (g_round g) = S c
                /\ s' = mkState (pc s) (queue s) (breakAll s)
                          (<[g_round g := c]> (wgs s))
                          (<[i := g']> (senders s)) (tr ++ [EvDone i])).
Proof.
  unfold sender_step. intros Hstep.
  assert ((forall ok, pc s <> Exited ok) /\ pc s <> Panicked) as [Hex Hpa].
  { by destruct (pc s). }
  assert (match senders s !! i with
          | None => None
          | Some g =>
              match sendFile_step conf w (g_file g) (g_pc g) with
              | None => None
              | Some (pc', eff) =>
                  let g' := mkGoroutine (g_file g) (g_round g) pc' in
                  let tr := trace s ++ map (effect_event (Sender i)) eff in
                  match pc' with
                  | Returned =>
                      match wg_counter s (g_round g) with
                      | 0 => Some (mkState Panicked (queue s) (breakAll s) (wgs s)
                                     (<[i := g']> (senders s)) tr)
                      | S c => Some (mkState (pc s) (queue s) (breakAll s)
                                       (<[g_round g := c]> (wgs s))
                                       (<[i := g']> (senders s))
                                       (tr ++ [EvDone i]))
                      end
                  | _ => Some (mkState (pc s) (queue s) (breakAll s) (wgs s)
                                 (<[i := g']> (senders s)) tr)
                  end
              end
          end = Some s') as Hstep'.
  { by destruct (pc s). }
  clear Hstep. destruct (senders s !! i) as [g |]; [| done].
  destruct (sendFile_step conf w (g_file g) (g_pc g)) as [[pc' eff] |] eqn:Hsf; [| done].
  exists g, pc', eff. repeat split; try done. simpl in Hstep'.
  destruct pc' as [| fp sentChunks lastPercentage |].
  - left. by simplify_eq.
  - left. by simplify_eq.
  - right. destruct (wg_counter s (g_round g)) as [| c] eqn:Hc; simplify_eq.
    + by left.
    + right. split; [done |]. by exists c.
Qed.

(** *** The scheduler's invariant *)

(** What holds of the scheduler in every state of a run: every goroutine
    belongs to a round that has started; the counter of each WaitGroup is the
    number of goroutines of its round that have not returned; the goroutines
    of the rounds before the current one have all returned, and so have all
    goroutines whenever the main goroutine is past a [wg.Wait()]; the queue
    and the goroutines started so far make up the enumerated files. *)
Record sched_inv (s : State) : Prop := mk_sched_inv {
  inv_round : forall i g, senders s !! i = Some g -> g_round g < length (wgs s);
  inv_wg : forall r c, wgs s !! r = Some c -> c = running r (senders s);
  inv_old : forall i g,
      senders s !! i = Some g -> S (g_round g) < length (wgs s) ->
      g_pc g = Returned;
  inv_pc :
    match pc s with
    | AtConnect | AtSendConfig | AtCollect | Exited false =>
        wgs s = [] /\ senders s = []
    | AtRound | AtSendClose | AtReturn | Exited true =>
        forall i g, senders s !! i = Some g -> g_pc g = Returned
    | AtInner _ | AtWait => wgs s <> []
    | Panicked => False
    end;
  inv_break :
    match pc s with
    | AtRound | AtInner _ => breakAll s = false
    | AtSendClose | AtReturn | Exited true => breakAll s = true /\ queue s = []
    | AtWait => breakAll s = true -> queue s = []
    | _ => True
    end;
  inv_queue :
    match pc s with
    | AtConnect | AtSendConfig | AtCollect | Exited false => True
    | _ => map g_file (senders s) ++ queue s = files (enumerate conf w)
    end;
  inv_connect :
    match pc s with
    | AtConnect | Panicked => True
    | Exited false => net_Connect w = false
    | _ => net_Connect w = true
    end;
  inv_threads : senders s <> [] -> (1 <= Threads conf)%N
}.

Lemma sched_inv_initial : sched_inv initial.
Proof. by constructor. Qed.

Lemma cur_round_lt s : wgs s <> [] -> cur_round s < length (wgs s).
Proof. unfold cur_round. destruct (wgs s); simpl; [done | lia]. Qed.

Lemma wg_counter_running s r :
  sched_inv s -> r < length (wgs s) -> wg_counter s r = running r (senders s).
Proof.
  intros Hinv Hr. unfold wg_counter.
  destruct (lookup_lt_is_Some_2 (wgs s) r Hr) as [c Hc].
  rewrite Hc. simpl. by eapply inv_wg.
Qed.

Lemma sched_inv_main s s' :
  sched_inv s -> main_step conf w s = Some s' -> sched_inv s'.
Proof.
  intros Hinv. pose proof Hinv as [Hround Hwg Hold Hpc Hbreak Hqueue Hconn Hthr].
  unfold main_step.
  destruct (pc s) as [| | | | i | | | | ok |] eqn:Hs; try done.
  - (* Connect *)
    destruct (net_Connect w) eqn:Hnet; intros [= <-]; by constructor.
  - (* the Config message *)
    intros [= <-]; by constructor.
  - (* collectFiles *)
    intros [= <-]. destruct Hpc as [Hw Hsn]. constructor; simpl; try done.
    + rewrite Hsn. by intros [] ?.
    + by rewrite Hsn.
  - (* a new round *)
    intros [= <-]. constructor; simpl; try done.
    + intros j g Hj. rewrite length_app. specialize (Hround j g Hj). lia.
    + intros r c [[_ Hr] | [-> <-]]%lookup_snoc_Some.
      * by apply Hwg.
      * symmetry. by apply running_all_returned.
    + intros j g Hj _. by eapply Hpc.
    + by destruct (wgs s).
  - (* one iteration of the inner loop *)
    pose proof (cur_round_lt s Hpc) as Hcur.
    destruct (i <? Threads conf)%N eqn:Hlt;
      [destruct (queue s) as [| file rest] eqn:Hq |];
      intros [= <-]; constructor; simpl; try done.
    + intros j g [[_ Hj] | [_ <-]]%lookup_snoc_Some; rewrite length_insert;
        [by eapply Hround | done].
    + intros r c Hr. rewrite running_app. simpl. unfold in_round at 1. simpl.
      apply list_lookup_insert_Some in Hr as [(<- & <- & _) | (Hne & Hr)].
      * rewrite bool_decide_eq_true_2 by done. simpl.
        rewrite (wg_counter_running s) by done. lia.
      * rewrite bool_decide_eq_false_2 by done. simpl.
        rewrite (Hwg r c Hr). lia.
    + intros j g [[_ Hj] | [_ <-]]%lookup_snoc_Some; rewrite length_insert.
      * by eapply Hold.
      * simpl. unfold cur_round. destruct (wgs s); simpl; [done | lia].
    + intros Hnil. apply (f_equal length) in Hnil. rewrite length_insert in Hnil.
      by destruct (wgs s).
    + rewrite map_app, <- (assoc_L (++)). simpl. by rewrite <- Hqueue.
    + intros _. apply N.ltb_lt in Hlt. lia.
    + intros Htrue. by rewrite Hbreak in Htrue.
  - (* wg.Wait() *)
    pose proof (cur_round_lt s Hpc) as Hcur.
    destruct (wg_counter s (cur_round s)) eqn:Hc; [| done].
    rewrite wg_counter_running in Hc by done.
    assert (forall j g, senders s !! j = Some g -> g_pc g = Returned) as Hall.
    { intros j g Hj. destruct (decide (g_round g = cur_round s)) as [Heq | Hne].
      - by eapply running_zero.
      - eapply Hold; [done |]. specialize (Hround j g Hj).
        unfold cur_round in Hne. lia. }
    destruct (breakAll s) eqn:Hb; intros [= <-]; constructor; simpl; try done.
    split; [done |]. by apply Hbreak.
  - (* the ConnectionClose message *)
    intros [= <-]; by constructor.
  - (* return *)
    intros [= <-]; by constructor.
Qed.

Lemma in_round_le_running r l i g :
  l !! i = Some g -> in_round r g <= running r l.
Proof.
  revert i. induction l as [| g0 l IH]; intros [| i] Hi; simpl in *; simplify_eq.
  - lia.
  - specialize (IH i Hi). lia.
Qed.

Lemma in_round_own g : g_pc g <> Returned -> in_round (g_round g) g = 1.
Proof.
  intros Hrun. unfold in_round, is_running.
  rewrite bool_decide_eq_true_2 by done. by destruct (g_pc g).
Qed.

Lemma in_round_other r g : g_round g <> r -> in_round r g = 0.
Proof. intros Hne. unfold in_round. by rewrite bool_decide_eq_false_2. Qed.

Lemma in_round_returned r g : g_pc g = Returned -> in_round r g = 0.
Proof. intros Hret. unfold in_round, is_running. by rewrite Hret, andb_false_r. Qed.

Lemma in_round_running_pc r g pc1 pc2 :
  pc1 <> Returned -> pc2 <> Returned ->
  in_round r (mkGoroutine (g_file g) (g_round g) pc1)
  = in_round r (mkGoroutine (g_file g) (g_round g) pc2).
Proof. unfold in_round, is_running. simpl. by destruct pc1, pc2. Qed.

Lemma map_g_file_insert l i g pc' :
  l !! i = Some g ->
  map g_file (<[i := mkGoroutine (g_file g) (g_round g) pc']> l) = map g_file l.
Proof.
  revert i. induction l as [| g0 l IH]; intros [| i] Hi; simpl in *; simplify_eq.
  - done.
  - by rewrite (IH i Hi).
Qed.

(** A goroutine that can still move belongs to the round in progress, and
    the counter of its WaitGroup is not zero: [wg.Done()] never panics. *)
Lemma sender_can_step s i g pc' eff :
  sched_inv s ->
  senders s !! i = Some g ->
  sendFile_step conf w (g_file g) (g_pc g) = Some (pc', eff) ->
  g_pc g <> Returned
  /\ S (g_round g) = length (wgs s)
  /\ (exists c, wg_counter s (g_round g) = S c)
  /\ wgs s <> [].
Proof.
  intros Hinv Hi Hstep.
  assert (g_pc g <> Returned) as Hrun by (intros Hr; by rewrite Hr in Hstep).
  pose proof (inv_round s Hinv i g Hi) as Hlt.
  split; [done |]. split; [| split].
  - destruct (decide (S (g_round g) < length (wgs s))) as [Hold | ?]; [| lia].
    by apply (inv_old s Hinv i g Hi) in Hold.
  - rewrite wg_counter_running by done.
    pose proof (in_round_le_running (g_round g) _ _ _ Hi) as Hle.
    rewrite in_round_own in Hle by done.
    destruct (running (g_round g) (senders s)) as [| c]; [lia | by exists c].
  - intros Hnil. rewrite Hnil in Hlt. simpl in Hlt. lia.
Qed.

Lemma sched_inv_sender i s s' :
  sched_inv s -> sender_step conf w i s = Some s' -> sched_inv s'.
Proof.
  intros Hinv Hstep.
  apply sender_step_Some in Hstep
    as (g & pc' & eff & Hi & Hsf & Hex & Hpa & Hcases).
  destruct (sender_can_step s i g pc' eff Hinv Hi Hsf) as (Hrun & Hcur & [c Hc] & Hwgs).
  pose proof Hinv as [Hround Hwg Hold Hpc Hbreak Hqueue Hconn Hthr].
  assert (match pc s with AtInner _ | AtWait => True | _ => False end) as Hat.
  { destruct (pc s) as [| | | | ? | | | | [] |]; try done;
      try (destruct Hpc as [_ Hnil]; by rewrite Hnil in Hi);
      try (by specialize (Hpc i g Hi)). }
  simpl in Hcases.
  destruct Hcases as [(Hpc' & ->) | [(_ & Hzero & _) | (-> & c' & Hc' & ->)]];
    [| by rewrite Hzero in Hc |].
  - (* the sender goes on *)
    constructor; simpl.
    + intros j g' [(<- & <- & _) | (_ & Hj)]%list_lookup_insert_Some; simpl; eauto.
    + intros r c0 Hr. rewrite (Hwg r c0 Hr).
      pose proof (running_insert r _ _ _ (mkGoroutine (g_file g) (g_round g) pc') Hi) as Hins.
      rewrite <- (in_round_running_pc r g (g_pc g) pc') in Hins by done.
      destruct g; simpl in *. lia.
    + intros j g' [(<- & <- & _) | (_ & Hj)]%list_lookup_insert_Some; simpl; [lia | eauto].
    + by destruct (pc s).
    + done.
    + rewrite map_g_file_insert by done. done.
    + done.
    + intros _. apply Hthr. intros Hnil. by rewrite Hnil in Hi.
  - (* the sender returns: wg.Done() *)
    rewrite Hc in Hc'. injection Hc' as <-.
    constructor; simpl.
    + intros j g' [(<- & <- & _) | (_ & Hj)]%list_lookup_insert_Some;
        rewrite length_insert; simpl; eauto.
    + intros r c0 Hr.
      pose proof (running_insert r _ _ _ (mkGoroutine (g_file g) (g_round g) Returned) Hi) as Hins.
      rewrite (in_round_returned r (mkGoroutine _ _ Returned)) in Hins by done.
      apply list_lookup_insert_Some in Hr as [(<- & <- & _) | (Hne & Hr)].
      * rewrite in_round_own in Hins by done.
        rewrite wg_counter_running in Hc by (try done; lia). lia.
      * rewrite in_round_other in Hins by done.
        rewrite (Hwg r c0 Hr). lia.
    + intros j g' [(<- & <- & _) | (_ & Hj)]%list_lookup_insert_Some;
        rewrite length_insert; simpl; eauto.
    + destruct (pc s); try done.
      * intros Hnil. apply (f_equal length) in Hnil. rewrite length_insert in Hnil.
        by destruct (wgs s).
      * intros Hnil. apply (f_equal length) in Hnil. rewrite length_insert in Hnil.
        by destruct (wgs s).
    + done.
    + rewrite map_g_file_insert by done. done.
    + done.
    + intros _. apply Hthr. intros Hnil. by rewrite Hnil in Hi.
Qed.

Lemma sched_inv_step a s s' :
  sched_inv s -> step conf w a s = Some s' -> sched_inv s'.
Proof. destruct a; [apply sched_inv_main | apply sched_inv_sender]. Qed.

Lemma sched_inv_exec sched s s' :
  sched_inv s -> exec conf w sched s = Some s' -> sched_inv s'.
Proof.
  revert s. induction sched as [| a sched IH]; intros s Hinv; simpl.
  - by intros [= <-].
  - destruct (step conf w a s) as [s1 |] eqn:Hstep; [| done].
    apply IH. by eapply sched_inv_step.
Qed.

Lemma sched_inv_run sched s : run conf w sched = Some s -> sched_inv s.
Proof. apply sched_inv_exec, sched_inv_initial. Qed.

(** *** What the trace records *)

(** A trace with the Config message first, only File and FileChunk messages
    after it, and the connection still open. *)
Definition session_open (tr : list Event) : Prop :=
  (exists body, wire tr = MsgConfig conf :: body /\ Forall is_data body)
  /\ ~ In EvConnClose tr.

(** The last events of a session that ran to its end. *)
Definition closing : list Event :=
  [EvOut Main OutClosing; EvSend Main (MsgConnectionClose (ConnectionID conf))].

(** The files of the [go] statements of a trace, in order. *)
Definition started (tr : list Event) : list File :=
  omap (fun e => match e with EvGo _ _ file => Some file | _ => None end) tr.

Record trace_inv (s : State) : Prop := mk_trace_inv {
  inv_reach : forall i g,
      senders s !! i = Some g ->
      sender_reach conf w (g_file g) (g_pc g) (effects_of i (trace s));
  inv_fresh : forall i, length (senders s) <= i -> effects_of i (trace s) = [];
  inv_wire :
    match pc s with
    | AtConnect | AtSendConfig | Exited false => trace s = []
    | AtReturn => exists tr, trace s = tr ++ closing /\ session_open tr
    | Exited true =>
        exists tr, trace s = tr ++ closing ++ [EvConnClose] /\ session_open tr
    | Panicked => True
    | _ => session_open (trace s)
    end;
  inv_go : forall j r file,
      In (EvGo j r file) (trace s) <->
      exists g, senders s !! j = Some g /\ g_round g = r /\ g_file g = file;
  inv_done : forall j,
      In (EvDone j) (trace s) <->
      exists g, senders s !! j = Some g /\ g_pc g = Returned;
  inv_started : started (trace s) = map g_file (senders s);
  inv_barrier : forall pre j r file post,
      trace s = pre ++ EvGo j r file :: post ->
      forall j' r' file', In (EvGo j' r' file') pre -> r' < r -> In (EvDone j') pre
}.

Lemma started_app tr1 tr2 : started (tr1 ++ tr2) = started tr1 ++ started tr2.
Proof. apply omap_app. Qed.

Lemma started_effects a eff : started (map (effect_event a) eff) = [].
Proof. induction eff as [| [] eff IH]; simpl; done. Qed.

Lemma started_outs a outs : started (map (EvOut a) outs) = [].
Proof. by induction outs. Qed.

Lemma in_effect_events a eff e :
  In e (map (effect_event a) eff) ->
  (exists m, e = EvSend a m) \/ (exists o, e = EvOut a o).
Proof.
  intros (x & <- & _)%in_map_iff. destruct x; simpl; eauto.
Qed.

Lemma session_open_app_outs tr a outs :
  session_open tr -> session_open (tr ++ map (EvOut a) outs).
Proof.
  intros [(body & Hw & Hbody) Hclose]. split.
  - exists body. by rewrite wire_app, wire_outs, app_nil_r.
  - intros [H | (o & Ho & _)%in_map_iff]%in_app_iff; done.
Qed.

Lemma sendFile_step_data file pc pc' eff :
  sendFile_step conf w file pc = Some (pc', eff) -> Forall is_data (emitted eff).
Proof.
  destruct pc as [| fp sentChunks lastPercentage |]; [| | done].
  - intros [= <- <-]. simpl. destruct (os_Open w _); simpl; by repeat constructor.
  - intros Hstep. apply sendFile_step_AtRead in Hstep
      as (n & buf & err & fp' & _ & Hcases).
    destruct Hcases as [(_ & _ & _ & ->) | [(_ & _ & ->) | (_ & _ & outs & last' & _ & Houts & ->)]];
      simpl; try done.
    destruct Houts as [-> | [bar ->]]; simpl; by repeat constructor.
Qed.

Lemma session_open_app_effects tr i file pc pc' eff :
  sendFile_step conf w file pc = Some (pc', eff) ->
  session_open tr -> session_open (tr ++ map (effect_event (Sender i)) eff).
Proof.
  intros Hstep [(body & Hw & Hbody) Hclose]. split.
  - exists (body ++ emitted eff). rewrite wire_app, wire_effects, Hw. split; [done |].
    apply Forall_app. split; [done |]. by eapply sendFile_step_data.
  - intros [H | H]%in_app_iff; [done |].
    apply in_effect_events in H as [[m H] | [o H]]; done.
Qed.

Lemma session_open_app_other tr evs :
  session_open tr -> wire evs = [] -> ~ In EvConnClose evs -> session_open (tr ++ evs).
Proof.
  intros [(body & Hw & Hbody) Hclose] Hevs Hno. split.
  - exists body. by rewrite wire_app, Hevs, app_nil_r.
  - intros [H | H]%in_app_iff; done.
Qed.

Lemma trace_inv_initial : trace_inv initial.
Proof.
  constructor; simpl; try done.
  - split; [done | by intros (g & ? & _)].
  - split; [done | by intros (g & ? & _)].
  - intros [] ? ? ? ?; done.
Qed.

(** The barrier on a trace: when a [go] of round [r] happens, every
    goroutine started in an earlier round has returned. *)
Definition barrier (tr : list Event) : Prop :=
  forall pre j r file post,
    tr = pre ++ EvGo j r file :: post ->
    forall j' r' file', In (EvGo j' r' file') pre -> r' < r -> In (EvDone j') pre.

Lemma barrier_app_no_go tr evs :
  barrier tr -> (forall j r file, ~ In (EvGo j r file) evs) -> barrier (tr ++ evs).
Proof.
  intros Hbar Hno pre j r file post Heq.
  apply app_eq_inv in Heq as [(k & -> & Hk) | (k & -> & Hk)].
  - destruct k as [| e k]; simpl in Hk.
    + exfalso. apply (Hno j r file). rewrite <- Hk. by left.
    + injection Hk as <- Hk. by eapply Hbar.
  - exfalso. apply (Hno j r file). rewrite Hk. apply in_app_iff. right. by left.
Qed.

Lemma barrier_app_go tr j r file :
  barrier tr ->
  (forall j' r' file', In (EvGo j' r' file') tr -> r' < r -> In (EvDone j') tr) ->
  barrier (tr ++ [EvGo j r file]).
Proof.
  intros Hbar Hnew pre j0 r0 file0 post Heq.
  apply app_eq_inv in Heq as [(k & -> & Hk) | (k & -> & Hk)].
  - destruct k as [| e k]; simpl in Hk.
    + injection Hk as <- <- <- _. rewrite app_nil_r in Hnew. exact Hnew.
    + injection Hk as <- Hk. by eapply Hbar.
  - destruct k as [| e k]; simpl in Hk.
    + injection Hk as <- <- <- _. rewrite app_nil_r. exact Hnew.
    + injection Hk as _ Hk. by destruct k.
Qed.

(** Events of the main goroutine other than a [go]. *)
Definition main_event (e : Event) : Prop :=
  match e with
  | EvSend Main _ | EvOut Main _ | EvConnClose => True
  | _ => False
  end.

Lemma effects_of_main_events i evs :
  Forall main_event evs -> effects_of i evs = [].
Proof.
  induction 1 as [| e evs He _ IH]; simpl; [done |].
  destruct e as [[] ? | [] ? | | |]; simpl in *; done.
Qed.

Lemma started_main_events evs : Forall main_event evs -> started evs = [].
Proof.
  induction 1 as [| e evs He _ IH]; simpl; [done |].
  destruct e as [[] ? | [] ? | | |]; simpl in *; done.
Qed.

(** A step of the main goroutine that starts no goroutine keeps what the
    trace records about the senders. *)
Lemma trace_inv_main_event s s' evs :
  trace_inv s ->
  senders s' = senders s ->
  trace s' = trace s ++ evs ->
  Forall main_event evs ->
  match pc s' with
  | AtConnect | AtSendConfig | Exited false => trace s' = []
  | AtReturn => exists tr, trace s' = tr ++ closing /\ session_open tr
  | Exited true =>
      exists tr, trace s' = tr ++ closing ++ [EvConnClose] /\ session_open tr
  | Panicked => True
  | _ => session_open (trace s')
  end ->
  trace_inv s'.
Proof.
  intros [Hreach Hfresh Hwire Hgo Hdone Hstarted Hbar] Hs Ht Hevs Hwire'.
  assert (forall e, In e evs -> main_event e) as Hin by (by apply Forall_forall).
  constructor; try done; rewrite ?Hs, ?Ht.
  - intros i g Hi. rewrite effects_of_app, (effects_of_main_events _ evs), app_nil_r by done.
    by apply Hreach.
  - intros i Hi. rewrite effects_of_app, (effects_of_main_events _ evs), app_nil_r by done.
    by apply Hfresh.
  - intros j r file. rewrite <- Hgo, in_app_iff. split; [| by left].
    intros [H | H]; [done |]. by apply Hin in H.
  - intros j. rewrite <- Hdone, in_app_iff. split; [| by left].
    intros [H | H]; [done |]. by apply Hin in H.
  - by rewrite started_app, (started_main_events evs), app_nil_r.
  - apply barrier_app_no_go; [done |]. intros j r file H. by apply Hin in H.
Qed.

Lemma trace_inv_main s s' :
  sched_inv s -> trace_inv s -> main_step conf w s = Some s' -> trace_inv s'.
Proof.
  intros Hsched Hinv. pose proof Hinv as [Hreach Hfresh Hwire Hgo Hdone Hstarted Hbar].
  unfold main_step.
  destruct (pc s) as [| | | | i | | | | ok |] eqn:Hs; try done.
  - (* Connect *)
    destruct (net_Connect w); intros [= <-];
      by apply (trace_inv_main_event s _ []); simpl; rewrite ?app_nil_r.
  - (* the Config message *)
    intros [= <-]. eapply trace_inv_main_event; simpl; eauto.
    + by repeat constructor.
    + rewrite Hwire. split; [by exists [] |]. by intros [? | []].
  - (* collectFiles *)
    intros [= <-]. eapply trace_inv_main_event; simpl; eauto.
    + apply Forall_forall. by intros e (o & <- & _)%in_map_iff.
    + by apply session_open_app_outs.
  - (* a new round *)
    intros [= <-]. by apply (trace_inv_main_event s _ []); simpl; rewrite ?app_nil_r.
  - (* one iteration of the inner loop *)
    destruct (i <? Threads conf)%N; [destruct (queue s) as [| file rest] eqn:Hq |];
      intros [= <-];
      try (by apply (trace_inv_main_event s _ []); simpl; rewrite ?app_nil_r).
    (* go sendFile(cln, &file, &wg) *)
    pose proof (inv_pc s Hsched) as Hpc. rewrite Hs in Hpc.
    pose proof (cur_round_lt s Hpc) as Hcur.
    constructor; simpl.
    + intros j g [[_ Hj] | [-> <-]]%lookup_snoc_Some; rewrite effects_of_app; simpl.
      * rewrite app_nil_r. by apply Hreach.
      * rewrite app_nil_r, Hfresh by done. constructor.
    + intros j. rewrite length_app, effects_of_app. simpl. intros Hj.
      rewrite app_nil_r. apply Hfresh. lia.
    + apply session_open_app_other; [done | done |]. by intros [? | []].
    + intros j r file'. rewrite in_app_iff, Hgo. simpl. split.
      * intros [(g & Hj & Hr & Hf) | [[= <- <- <-] | []]].
        -- exists g. split; [| done]. by apply lookup_app_l_Some.
        -- eexists. split; [by apply list_lookup_middle |]. done.
      * intros (g & [[_ Hj] | [-> <-]]%lookup_snoc_Some & Hr & Hf).
        -- left. by exists g.
        -- right. left. simpl in *. by subst.
    + intros j. rewrite in_app_iff, Hdone. simpl. split.
      * intros [(g & Hj & Hr) | [? | []]]; [| done].
        exists g. split; [| done]. by apply lookup_app_l_Some.
      * intros (g & [[_ Hj] | [-> <-]]%lookup_snoc_Some & Hr); [| done].
        left. by exists g.
    + rewrite started_app, map_app, Hstarted. done.
    + apply barrier_app_go; [done |].
      intros j' r' file' (g & Hj & <- & _)%Hgo Hlt. apply Hdone.
      exists g. split; [done |]. eapply (inv_old s Hsched); [done |].
      unfold cur_round in Hlt. lia.
  - (* wg.Wait() *)
    destruct (wg_counter s (cur_round s)); [| done].
    destruct (breakAll s); intros [= <-];
      by apply (trace_inv_main_event s _ []); simpl; rewrite ?app_nil_r.
  - (* the ConnectionClose message *)
    intros [= <-]. eapply trace_inv_main_event; simpl; eauto.
    by repeat constructor.
  - (* return, and the deferred Close *)
    intros [= <-]. eapply trace_inv_main_event; simpl; eauto.
    + by repeat constructor.
    + destruct Hwire as (tr & -> & Hopen). exists tr.
      by rewrite <- (assoc_L (++)).
Qed.

Lemma trace_inv_sender i s s' :
  sched_inv s -> trace_inv s -> sender_step conf w i s = Some s' -> trace_inv s'.
Proof.
  intros Hsched Hinv Hstep.
  pose proof Hinv as [Hreach Hfresh Hwire Hgo Hdone Hstarted Hbar].
  apply sender_step_Some in Hstep
    as (g & pc' & eff & Hi & Hsf & Hex & Hpa & Hcases).
  destruct (sender_can_step s i g pc' eff Hsched Hi Hsf) as (Hrun & Hcur & [c Hc] & Hwgs).
  assert (match pc s with AtInner _ | AtWait => True | _ => False end) as Hat.
  { pose proof (inv_pc s Hsched) as Hpc.
    destruct (pc s) as [| | | | ? | | | | [] |]; try done;
      try (destruct Hpc as [_ Hnil]; by rewrite Hnil in Hi);
      try (by specialize (Hpc i g Hi)). }
  assert (session_open (trace s)) as Hopen.
  { by destruct (pc s) as [| | | | ? | | | | [] |]. }
  pose proof (lookup_lt_Some _ _ _ Hi) as Hlt.
  set (g' := mkGoroutine (g_file g) (g_round g) pc') in *.
  set (evs := map (effect_event (Sender i)) eff) in *.
  assert (forall e, In e evs ->
                    (exists m, e = EvSend (Sender i) m) \/ (exists o, e = EvOut (Sender i) o))
    as Hevs by (intros e; apply in_effect_events).
  assert (forall j r file,
             (exists g0, <[i := g']> (senders s) !! j = Some g0
                         /\ g_round g0 = r /\ g_file g0 = file)
             <-> In (EvGo j r file) (trace s)) as Hgo'.
  { intros j r file. rewrite Hgo. split.
    - intros (g0 & [(<- & <- & _) | (_ & Hj)]%list_lookup_insert_Some & Hr & Hf).
      + by exists g.
      + by exists g0.
    - intros (g0 & Hj & Hr & Hf). destruct (decide (i = j)) as [<- | Hne].
      + exists g'. rewrite list_lookup_insert_eq by done. by simplify_eq.
      + exists g0. by rewrite list_lookup_insert_ne. }
  assert (forall tr, (forall j, effects_of j tr = []) ->
                     forall j g0, <[i := g']> (senders s) !! j = Some g0 ->
             sender_reach conf w (g_file g0) (g_pc g0)
               (effects_of j ((trace s ++ evs) ++ tr))) as Hreach'.
  { intros tr Htr j g0 [(<- & <- & _) | (Hne & Hj)]%list_lookup_insert_Some.
    - rewrite !effects_of_app, Htr, app_nil_r. unfold evs. rewrite effects_of_own.
      eapply reach_step; [exact (Hreach i g Hi) | done].
    - rewrite !effects_of_app, Htr. unfold evs. rewrite effects_of_other by done.
      rewrite !app_nil_r. by apply Hreach. }
  simpl in Hcases.
  destruct Hcases as [(Hpc' & ->) | [(_ & Hzero & _) | (-> & c' & Hc' & ->)]];
    [| by rewrite Hzero in Hc |].
  - (* the sender goes on *)
    constructor; simpl.
    + intros j g0 Hj. specialize (Hreach' [] (fun _ => eq_refl) j g0 Hj).
      by rewrite app_nil_r in Hreach'.
    + intros j. rewrite length_insert, effects_of_app. intros Hj.
      unfold evs. rewrite effects_of_other by lia. rewrite app_nil_r. by apply Hfresh.
    + assert (session_open (trace s ++ evs)) as Hopen'
        by (by eapply session_open_app_effects).
      by destruct (pc s) as [| | | | ? | | | | [] |].
    + intros j r file. rewrite Hgo', in_app_iff. split; [| by left].
      intros [H | [[m H] | [o H]]%Hevs]; done.
    + intros j. rewrite in_app_iff, Hdone. split.
      * intros [(g0 & Hj & Hr) | [[m H] | [o H]]%Hevs]; try done.
        destruct (decide (i = j)) as [<- | Hne]; [by simplify_eq |].
        exists g0. by rewrite list_lookup_insert_ne.
      * intros (g0 & [(<- & <- & _) | (_ & Hj)]%list_lookup_insert_Some & Hr);
          [done |]. left. by exists g0.
    + unfold g'. rewrite started_app, map_g_file_insert by done. unfold evs.
      by rewrite started_effects, app_nil_r.
    + apply barrier_app_no_go; [done |].
      intros j r file [[m H] | [o H]]%Hevs; done.
  - (* the sender returns *)
    constructor; simpl.
    + intros j g0 Hj. by apply Hreach'.
    + intros j. rewrite length_insert, !effects_of_app. intros Hj.
      unfold evs. rewrite effects_of_other by lia. simpl.
      rewrite !app_nil_r. by apply Hfresh.
    + assert (session_open ((trace s ++ evs) ++ [EvDone i])) as Hopen'.
      { apply session_open_app_other; [| done | by intros [? | []]].
        by eapply session_open_app_effects. }
      by destruct (pc s) as [| | | | ? | | | | [] |].
    + intros j r file. rewrite Hgo', !in_app_iff. split; [| intros ?; by left; left].
      intros [[H | [[m H] | [o H]]%Hevs] | [H | []]]; done.
    + intros j. rewrite !in_app_iff, Hdone. simpl. split.
      * intros [[(g0 & Hj & Hr) | [[m H] | [o H]]%Hevs] | [[= <-] | []]]; try done.
        -- destruct (decide (i = j)) as [<- | Hne]; [by simplify_eq |].
           exists g0. by rewrite list_lookup_insert_ne.
        -- exists g'. by rewrite list_lookup_insert_eq.
      * intros (g0 & [(<- & <- & _) | (_ & Hj)]%list_lookup_insert_Some & Hr).
        -- right. by left.
        -- left. left. by exists g0.
    + unfold g'. rewrite !started_app, map_g_file_insert by done. unfold evs.
      by rewrite started_effects, !app_nil_r.
    + apply barrier_app_no_go; [apply barrier_app_no_go; [done |] |].
      * intros j r file [[m H] | [o H]]%Hevs; done.
      * by intros j r file [? | []].
Qed.

Lemma trace_inv_run sched s : run conf w sched = Some s -> trace_inv s.
Proof.
  unfold run. assert (sched_inv initial /\ trace_inv initial) as Hinit
    by (split; [apply sched_inv_initial | apply trace_inv_initial]).
  revert Hinit. generalize initial as s0.
  induction sched as [| a sched IH]; intros s0 [Hs Ht]; simpl.
  - by intros [= <-].
  - destruct (step conf w a s0) as [s1 |] eqn:Hstep; [| done].
    apply IH. split; [by eapply sched_inv_step |].
    destruct a; [by eapply trace_inv_main | by eapply trace_inv_sender].
Qed.

(** *** Rounds *)

(** The concurrency level as a number of goroutines. *)
Definition T : nat := N.to_nat (Threads conf).

(** The goroutine started as the [j]-th belongs to round [j / T], and the
    inner loop counter counts the goroutines of the round in progress. *)
Definition rounds_inv (s : State) : Prop :=
  (forall j g, senders s !! j = Some g -> T <> 0 /\ g_round g = j `div` T)
  /\ match pc s with
     | AtRound => length (senders s) = length (wgs s) * T
     | AtInner i =>
         N.to_nat i <= T /\ length (senders s) = cur_round s * T + N.to_nat i
     | AtWait => breakAll s = false -> length (senders s) = length (wgs s) * T
     | _ => True
     end.

Lemma rounds_inv_step a s s' :
  (Threads conf < 65536)%N ->
  sched_inv s -> rounds_inv s -> step conf w a s = Some s' -> rounds_inv s'.
Proof.
  intros Hu16 Hsched [Hdiv Hcount]. destruct a as [| i]; simpl.
  - unfold main_step.
    pose proof (inv_pc s Hsched) as Hpc.
    destruct (pc s) as [| | | | i | | | | ok |] eqn:Hs; try done.
    + destruct (net_Connect w); intros [= <-]; by split.
    + intros [= <-]; by split.
    + intros [= <-]. destruct Hpc as [-> Hnil]. split; simpl; [done |].
      by rewrite Hnil.
    + intros [= <-]. split; simpl; [done |]. split; [lia |].
      unfold cur_round. simpl. rewrite length_app. simpl.
      rewrite Nat.add_1_r. simpl. lia.
    + destruct Hcount as [Hle Hlen].
      destruct (i <? Threads conf)%N eqn:Hlt;
        [destruct (queue s) as [| file rest] eqn:Hq |]; intros [= <-].
      * by split.
      * apply N.ltb_lt in Hlt.
        assert (N.to_nat i < T) as Hlt' by (unfold T; lia).
        assert (N.to_nat (uint16_succ i) = S (N.to_nat i)) as Hsucc.
        { unfold uint16_succ. rewrite N.mod_small by lia. lia. }
        split; simpl.
        -- intros j g [[_ Hj] | [-> <-]]%lookup_snoc_Some; [by apply Hdiv |].
           simpl. split; [lia |]. rewrite Hlen.
           rewrite Nat.div_add_l by lia. rewrite Nat.div_small by done. lia.
        -- rewrite Hsucc, length_app. simpl. unfold cur_round; simpl.
           rewrite length_insert. fold (cur_round s). lia.
      * apply N.ltb_ge in Hlt. split; simpl; [done |]. intros _.
        assert (N.to_nat i = T) as Heq by (unfold T in *; lia).
        rewrite Hlen, Heq. unfold cur_round. destruct (wgs s); simpl; [done | lia].
    + destruct (wg_counter s (cur_round s)); [| done].
      destruct (breakAll s) eqn:Hb; intros [= <-]; split; simpl; try done.
      by apply Hcount.
    + intros [= <-]; by split.
    + intros [= <-]; by split.
  - intros Hstep. apply sender_step_Some in Hstep
      as (g & pc' & eff & Hi & Hsf & Hex & Hpa & Hcases).
    assert (forall j g0,
               <[i := mkGoroutine (g_file g) (g_round g) pc']> (senders s) !! j = Some g0 ->
               T <> 0 /\ g_round g0 = j `div` T) as Hdiv'.
    { intros j g0 [(<- & <- & _) | (_ & Hj)]%list_lookup_insert_Some; simpl; eauto. }
    simpl in Hcases.
    destruct Hcases as [(Hpc' & ->) | [(_ & _ & ->) | (-> & c' & Hc' & ->)]];
      split; simpl; try done.
    + destruct (pc s); try done; by rewrite length_insert.
    + destruct (pc s); try done; unfold cur_round in *; simpl;
        by rewrite !length_insert.
Qed.

Lemma rounds_inv_run sched s :
  (Threads conf < 65536)%N -> run conf w sched = Some s -> rounds_inv s.
Proof.
  intros Hu16. unfold run.
  assert (sched_inv initial /\ rounds_inv initial) as Hinit.
  { split; [apply sched_inv_initial |]. split; [by intros [] ? | done]. }
  revert Hinit. generalize initial as s0.
  induction sched as [| a sched IH]; intros s0 [Hs Hr]; simpl.
  - by intros [= <-].
  - destruct (step conf w a s0) as [s1 |] eqn:Hstep; [| done].
    apply IH. split; [by eapply sched_inv_step | by eapply rounds_inv_step].
Qed.

(** *** Termination *)

Definition pc_rank (p : MainPC) : nat :=
  match p with
  | AtConnect => 10
  | AtSendConfig => 9
  | AtCollect => 8
  | AtInner 0%N => 4
  | AtInner _ => 7
  | AtWait => 6
  | AtRound => 5
  | AtSendClose => 2
  | AtReturn => 1
  | Exited _ | Panicked => 0
  end.

Definition sender_cost (g : Goroutine) : nat :=
  sender_measure conf w (g_file g) (g_pc g).

Definition file_cost (file : File) : nat :=
  8 + sender_measure conf w file AtOpen.

(** The files still to be taken from the queue. *)
Definition pending (s : State) : list File :=
  match pc s with
  | AtConnect | AtSendConfig | AtCollect => files (enumerate conf w)
  | Exited _ | Panicked => []
  | _ => queue s
  end.

Definition may_break (s : State) : nat :=
  match pc s with
  | AtConnect | AtSendConfig | AtCollect => 8
  | Exited _ | Panicked => 0
  | _ => if breakAll s then 0 else 8
  end.

(** A bound on the number of steps the process still takes. *)
Definition measure (s : State) : nat :=
  pc_rank (pc s) + may_break s
  + sum_list_with file_cost (pending s)
  + sum_list_with sender_cost (senders s).

Lemma sum_list_with_insert {A} (f : A -> nat) (l : list A) i x y :
  l !! i = Some x ->
  sum_list_with f (<[i := y]> l) + f x = sum_list_with f l + f y.
Proof.
  revert i. induction l as [| z l IH]; intros [| i] Hi; simpl in *; simplify_eq.
  - lia.
  - specialize (IH i Hi). lia.
Qed.

Lemma pc_rank_inner_le i : pc_rank (AtInner i) <= 7.
Proof. destruct i; simpl; lia. Qed.

Lemma pc_rank_inner_ge i : 4 <= pc_rank (AtInner i).
Proof. destruct i; simpl; lia. Qed.

Lemma pc_rank_inner_pos i : i <> 0%N -> pc_rank (AtInner i) = 7.
Proof. by destruct i. Qed.

Local Arguments pc_rank : simpl never.

Lemma measure_step a s s' :
  (1 <= Threads conf)%N ->
  0 < ReadBufferSize conf ->
  sched_inv s ->
  step conf w a s = Some s' ->
  measure s' < measure s.
Proof.
  intros HT Hb Hsched. destruct a as [| i]; simpl.
  - unfold main_step, measure, pending, may_break.
    pose proof (inv_break s Hsched) as Hbreak.
    destruct (pc s) as [| | | | i | | | | ok |] eqn:Hs; try done.
    + destruct (net_Connect w); intros [= <-]; simpl; unfold pc_rank; lia.
    + intros [= <-]; simpl; unfold pc_rank; lia.
    + intros [= <-]; simpl. unfold enumerate, pc_rank. lia.
    + intros [= <-]; simpl. rewrite Hbreak. unfold pc_rank. lia.
    + destruct (i <? Threads conf)%N eqn:Hlt;
        [destruct (queue s) as [| file rest] eqn:Hq |]; intros [= <-]; simpl.
      * rewrite Hbreak. pose proof (pc_rank_inner_ge i). lia.
      * rewrite sum_list_with_app. simpl. unfold file_cost, sender_cost at 2. simpl.
        pose proof (pc_rank_inner_ge i). pose proof (pc_rank_inner_le (uint16_succ i)).
        lia.
      * apply N.ltb_ge in Hlt. rewrite pc_rank_inner_pos by lia.
        unfold pc_rank. lia.
    + destruct (wg_counter s (cur_round s)); [| done].
      destruct (breakAll s); intros [= <-]; simpl; unfold pc_rank; lia.
    + intros [= <-]; simpl; unfold pc_rank; lia.
    + intros [= <-]; simpl. unfold pc_rank. destruct (breakAll s); lia.
  - intros Hstep. apply sender_step_Some in Hstep
      as (g & pc' & eff & Hi & Hsf & Hex & Hpa & Hcases).
    pose proof (sum_list_with_insert sender_cost _ _ _
                  (mkGoroutine (g_file g) (g_round g) pc') Hi) as Hsum.
    apply sender_step_measure in Hsf; [| done].
    unfold sender_cost in Hsum at 2 4. simpl in Hsum.
    unfold measure, pending, may_break. simpl in Hcases.
    destruct Hcases as [(Hpc' & ->) | [(_ & _ & ->) | (-> & c' & Hc' & ->)]]; simpl.
    + lia.
    + unfold pc_rank. destruct (pc s); destruct (breakAll s); simpl; lia.
    + lia.
Qed.

Lemma measure_exec sched s s' :
  (1 <= Threads conf)%N ->
  0 < ReadBufferSize conf ->
  sched_inv s ->
  exec conf w sched s = Some s' ->
  length sched + measure s' <= measure s.
Proof.
  intros HT Hb. revert s. induction sched as [| a sched IH]; intros s Hinv; simpl.
  - intros [= <-]. lia.
  - destruct (step conf w a s) as [s1 |] eqn:Hstep; [| done]. intros Hexec.
    apply measure_step in Hstep as Hlt; [| done | done | done].
    apply IH in Hexec; [lia |]. by eapply sched_inv_step.
Qed.

Lemma running_pos r l :
  0 < running r l ->
  exists i g, l !! i = Some g /\ g_pc g <> Returned /\ g_round g = r.
Proof.
  induction l as [| g0 l IH]; simpl; [lia |]. intros Hpos.
  destruct (in_round r g0) eqn:Hg0.
  - destruct IH as (i & g & Hi & Hrun & Hr); [lia |]. by exists (S i), g.
  - exists 0, g0. split; [done |]. unfold in_round, is_running in Hg0.
    destruct (bool_decide (g_round g0 = r)) eqn:Hr; [| done].
    apply bool_decide_eq_true in Hr. by destruct (g_pc g0).
Qed.

Lemma sender_step_is_Some s i g :
  (forall ok, pc s <> Exited ok) -> pc s <> Panicked ->
  senders s !! i = Some g -> g_pc g <> Returned ->
  is_Some (sender_step conf w i s).
Proof.
  intros Hex Hpa Hi Hrun. unfold sender_step. rewrite Hi.
  destruct (sendFile_step_Some conf w (g_file g) (g_pc g) Hrun) as [[pc' eff] ->].
  destruct (pc s) as [| | | | ? | | | | ok |]; try done;
    try (by destruct (Hex ok));
    (destruct pc';
     [by eexists | by eexists | destruct (wg_counter s (g_round g)); by eexists]).
Qed.

(** As long as [RunE] has not returned some goroutine can move. *)
Lemma progress s :
  sched_inv s -> (forall ok, pc s <> Exited ok) ->
  exists a, is_Some (step conf w a s).
Proof.
  intros Hsched Hex.
  pose proof (inv_pc s Hsched) as Hpc.
  destruct (pc s) as [| | | | i | | | | ok |] eqn:Hs; try done;
    try (exists Main; simpl; unfold main_step; rewrite Hs; by eexists).
  - exists Main; simpl; unfold main_step; rewrite Hs.
    destruct (net_Connect w); by eexists.
  - exists Main; simpl; unfold main_step; rewrite Hs.
    destruct (i <? Threads conf)%N; [destruct (queue s) |]; by eexists.
  - destruct (wg_counter s (cur_round s)) as [| c] eqn:Hc.
    + exists Main; simpl; unfold main_step; rewrite Hs, Hc.
      destruct (breakAll s); by eexists.
    + rewrite wg_counter_running in Hc by (try done; by apply cur_round_lt).
      destruct (running_pos (cur_round s) (senders s)) as (i & g & Hi & Hrun & _);
        [lia |].
      exists (Sender i). simpl. apply (sender_step_is_Some s i g); try done.
      * intros ok. by rewrite Hs.
      * by rewrite Hs.
  - by destruct (Hex ok).
Qed.

(** With at least one thread and a read buffer that is not empty, every run
    can be carried on until [RunE] returns. *)
Lemma can_finish s :
  (1 <= Threads conf)%N ->
  0 < ReadBufferSize conf ->
  sched_inv s ->
  exists sched s', exec conf w sched s = Some s' /\ exists ok, pc s' = Exited ok.
Proof.
  intros HT Hb. remember (measure s) as n eqn:Hn. revert s Hn.
  induction n as [n IH] using lt_wf_ind. intros s -> Hsched.
  destruct (pc s) as [| | | | i | | | | ok |] eqn:Hs;
    try (destruct (progress s Hsched) as [a [s1 Hstep]];
         [intros ok; by rewrite Hs |];
         destruct (IH (measure s1)) with (s := s1) as (sched & s' & Hexec & Hexit);
         [by eapply measure_step | done | by eapply sched_inv_step |];
         exists (a :: sched), s'; simpl; rewrite Hstep; done).
  exists [], s. split; [done |]. by exists ok.
Qed.

(** *** Runs that go on *)

Lemma exec_app sched1 sched2 s :
  exec conf w (sched1 ++ sched2) s
  = match exec conf w sched1 s with
    | Some s1 => exec conf w sched2 s1
    | None => None
    end.
Proof.
  revert s. induction sched1 as [| a sched1 IH]; intros s; simpl; [done |].
  destruct (step conf w a s); [apply IH | done].
Qed.

Lemma run_app sched1 sched2 s1 s2 :
  run conf w sched1 = Some s1 -> exec conf w sched2 s1 = Some s2 ->
  run conf w (sched1 ++ sched2) = Some s2.
Proof. unfold run. intros H1 H2. by rewrite exec_app, H1. Qed.






(** *** No threads *)

(** With [conf.Threads = 0] the inner loop never runs: no goroutine is ever
    started, [breakAll] stays false, and the main goroutine goes round the
    outer loop for ever. *)
Definition idle_inv (s : State) : Prop :=
  senders s = [] /\ breakAll s = false
  /\ match pc s with
     | AtConnect | AtSendConfig | AtCollect | AtRound | AtInner _ | AtWait
     | Exited false => True
     | _ => False
     end.

Lemma idle_inv_step a s s' :
  Threads conf = 0%N -> idle_inv s -> step conf w a s = Some s' -> idle_inv s'.
Proof.
  intros HT (Hsn & Hb & Hpc). destruct a as [| i]; simpl.
  - unfold main_step. rewrite HT.
    destruct (pc s) as [| | | | i | | | | ok |]; try done.
    + destruct (net_Connect w); by intros [= <-].
    + by intros [= <-].
    + by intros [= <-].
    + by intros [= <-].
    + destruct (i <? 0)%N eqn:Hlt; [by apply N.ltb_lt in Hlt; lia |].
      by intros [= <-].
    + destruct (wg_counter s (cur_round s)); [| done]. rewrite Hb. by intros [= <-].
  - intros (g & _ & _ & Hi & _)%sender_step_Some. by rewrite Hsn in Hi.
Qed.

Lemma idle_inv_run sched s :
  Threads conf = 0%N -> run conf w sched = Some s -> idle_inv s.
Proof.
  intros HT. unfold run. assert (idle_inv initial) as Hinit by done.
  revert Hinit. generalize initial as s0.
  induction sched as [| a sched IH]; intros s0 Hs0; simpl.
  - by intros [= <-].
  - destruct (step conf w a s0) as [s1 |] eqn:Hstep; [| done].
    apply IH. by eapply idle_inv_step.
Qed.

End Session.

(** ** A session to run the model on *)

(** [init] (lines 182-195) with the values of the flags [-a], [-p], [-d] and
    [-t]: it draws the connection identifier and sets the read buffer to 5
    bytes. *)
Definition init (host : string) (port : N) (dir : path) (threads : N) : Config :=
  {| Hostname := host; Port := port; WorkingDirectory := dir; Threads := threads;
     ConnectionID := 0; ReadBufferSize := 5 |}.

Definition demo_conf : Config := init "receiver" 9000 ["src"%string] 2.

(** A tree with [a.txt] (7 bytes), [sub/b.txt] (empty), [c.txt] (12 bytes,
    whose second read fails) and a directory that cannot be read. *)
Definition demo_world : World :=
  {| net_Connect := true;
     ReadDir_root :=
       Some [InfoFile "a.txt" 7;
             InfoDir "sub" (Some [InfoFile "b.txt" 0]);
             InfoFile "c.txt" 12;
             InfoDir "locked" None];
     os_Open := fun p =>
       if decide (p = ["src"; "a.txt"]%string) then
         Some {| h_data := [x61; x62; x63; x64; x65; x66; x67]; h_fault := None |}
       else if decide (p = ["src"; "sub"; "b.txt"]%string) then
         Some {| h_data := []; h_fault := None |}
       else if decide (p = ["src"; "c.txt"]%string) then
         Some {| h_data := [x31; x32; x33; x34; x35; x36; x37; x38; x39; x30; x31; x32];
                 h_fault := Some 1 |}
       else None |}.

(** One interleaving that runs the session to its end: [a.txt] and
    [sub/b.txt] go in the first round, their senders alternating, [c.txt] in
    the second. *)
Definition demo_sched : list Actor :=
  [Main; Main; Main; Main; Main; Main; Main;
   Sender 0; Sender 1; Sender 0; Sender 1; Sender 0; Sender 0;
   Main; Main; Main; Main;
   Sender 2; Sender 2; Sender 2;
   Main; Main; Main].

Definition demo_final : State :=
  Eval vm_compute in default initial (run demo_conf demo_world demo_sched).

(** The same session stopped in the middle of the first round, with both
    senders of the round at work. *)
Definition demo_midway : State :=
  Eval vm_compute in
    default initial (run demo_conf demo_world (take 9 demo_sched)).

Lemma demo_run : run demo_conf demo_world demo_sched = Some demo_final.
Proof. vm_compute. reflexivity. Qed.

Lemma demo_run_midway :
  run demo_conf demo_world (take 9 demo_sched) = Some demo_midway.
Proof. vm_compute. reflexivity. Qed.

(** ** The claims about the session *)

(** C8.  In every run the Config message is the first message on the wire
    and the only Config message: before line 63 of [RunE] has run, and when
    [ncclient.Connect] fails, the wire is empty; from then on the wire starts
    with the Config message of the session and holds no other one, so every
    File and FileChunk message comes after it. *)
Theorem config_frame_first_and_only (conf : Config) (w : World)
        (sched : list Actor) (s : State) :
  run conf w sched = Some s ->
  match pc s with
  | AtConnect | AtSendConfig => wire (trace s) = []
  | Exited false => wire (trace s) = [] /\ net_Connect w = false
  | Panicked => False
  | _ =>
      net_Connect w = true
      /\ exists rest,
          wire (trace s) = MsgConfig conf :: rest
          /\ forall c, ~ In (MsgConfig c) rest
  end.
Proof.
  intros Hrun.
  pose proof (sched_inv_run conf w sched s Hrun) as Hsched.
  pose proof (trace_inv_run conf w sched s Hrun) as Htrace.
  pose proof (inv_wire conf w s Htrace) as Hwire.
  pose proof (inv_connect conf w s Hsched) as Hconn.
  pose proof (inv_pc conf w s Hsched) as Hpc.
  assert (forall body c, Forall is_data body -> ~ In (MsgConfig c) body) as Hdata.
  { intros body c Hbody Hin. rewrite Forall_forall in Hbody. by apply Hbody in Hin. }
  assert (forall tr, session_open conf tr ->
                     exists rest, wire tr = MsgConfig conf :: rest
                                  /\ forall c, ~ In (MsgConfig c) rest) as Hopen.
  { intros tr [(body & -> & Hbody) _]. exists body. split; [done |].
    intros c. by apply Hdata. }
  destruct (pc s) as [| | | | i | | | | [] |]; try done;
    try (by rewrite Hwire); try (split; [done |]; by apply Hopen).
  - (* the ConnectionClose message has been sent *)
    split; [done |]. destruct Hwire as (tr & -> & [(body & Hw & Hbody) _]).
    exists (body ++ [MsgConnectionClose (ConnectionID conf)]).
    rewrite wire_app, Hw. split; [done |].
    intros c [Hin | [Hin | []]]%in_app_iff; [by eapply Hdata | done].
  - split; [done |]. destruct Hwire as (tr & -> & [(body & Hw & Hbody) _]).
    exists (body ++ [MsgConnectionClose (ConnectionID conf)]).
    rewrite wire_app, Hw. split; [done |].
    intros c [Hin | [Hin | []]]%in_app_iff; [by eapply Hdata | done].
Qed.

Lemma config_frame_first_and_only_witness :
  run demo_conf demo_world demo_sched = Some demo_final
  /\ (net_Connect demo_world = true
      /\ exists rest,
          wire (trace demo_final) = MsgConfig demo_conf :: rest
          /\ forall c, ~ In (MsgConfig c) rest).
Proof.
  split; [vm_compute; reflexivity |].
  apply (config_frame_first_and_only demo_conf demo_world demo_sched demo_final).
  vm_compute; reflexivity.
Defined.

(** The end of a session as the spec states it: the wire ends with one Close
    message followed by one ConnectionClose message. *)
Definition ends_with_Close_ConnectionClose (conf : Config) (s : State) : Prop :=
  exists body,
    wire (trace s) = body ++ [MsgClose; MsgConnectionClose (ConnectionID conf)].

(** C1, as stated, fails: the session of [demo_world] runs to its end, and
    its wire holds no Close message at all; the ConnectionClose message
    follows the last FileChunk message directly. *)
Lemma demo_session_sends_no_Close :
  run demo_conf demo_world demo_sched = Some demo_final
  /\ pc demo_final = Exited true
  /\ queue demo_final = []
  /\ ~ In MsgClose (wire (trace demo_final))
  /\ ~ ends_with_Close_ConnectionClose demo_conf demo_final.
Proof.
  split; [exact demo_run |]. split; [reflexivity |]. split; [reflexivity |].
  assert (~ In MsgClose (wire (trace demo_final))) as Hno.
  { vm_compute. intros H. repeat (destruct H as [H | H]; [discriminate |]). done. }
  split; [done |]. intros (body & Hbody). apply Hno. rewrite Hbody.
  apply in_app_iff. right. by left.
Qed.

(** C1, as amended.  In every run that reaches the end of [RunE], the last
    three events are the "closing connection" line, one ConnectionClose
    message and the closing of the transport; before them the connection was
    open and the wire holds the Config message followed by File and
    FileChunk messages only, so there is no Close message and no other
    ConnectionClose message.  By then the queue is empty, every enumerated
    file has been handed to a sender, and every sender has returned. *)
Theorem session_ends_with_one_ConnectionClose (conf : Config) (w : World)
        (sched : list Actor) (s : State) :
  run conf w sched = Some s ->
  pc s = Exited true ->
  (exists tr body,
      trace s = tr ++ [EvOut Main OutClosing;
                       EvSend Main (MsgConnectionClose (ConnectionID conf));
                       EvConnClose]
      /\ wire tr = MsgConfig conf :: body
      /\ Forall is_data body
      /\ ~ In EvConnClose tr
      /\ wire (trace s)
         = MsgConfig conf :: body ++ [MsgConnectionClose (ConnectionID conf)])
  /\ ~ In MsgClose (wire (trace s))
  /\ queue s = []
  /\ map g_file (senders s) = files (enumerate conf w)
  /\ (forall i g, senders s !! i = Some g ->
                  g_pc g = Returned /\ In (EvDone i) (trace s)).
Proof.
  intros Hrun Hexit.
  pose proof (sched_inv_run conf w sched s Hrun) as Hsched.
  pose proof (trace_inv_run conf w sched s Hrun) as Htrace.
  pose proof (inv_wire conf w s Htrace) as Hwire.
  pose proof (inv_pc conf w s Hsched) as Hpc.
  pose proof (inv_break conf w s Hsched) as Hbreak.
  pose proof (inv_queue conf w s Hsched) as Hqueue.
  rewrite Hexit in Hwire, Hpc, Hbreak, Hqueue.
  destruct Hwire as (tr & Htr & [(body & Hw & Hbody) Hclose]).
  destruct Hbreak as [_ Hq]. rewrite Hq, app_nil_r in Hqueue.
  assert (wire (trace s)
          = MsgConfig conf :: body ++ [MsgConnectionClose (ConnectionID conf)])
    as Hwhole by (by rewrite Htr, wire_app, Hw).
  split; [| split; [| split; [| split]]]; try done.
  - by exists tr, body.
  - rewrite Hwhole. intros [Hin | [Hin | [Hin | []]]%in_app_iff]; try done.
    rewrite Forall_forall in Hbody. by apply Hbody in Hin.
  - intros i g Hi. split; [by eapply Hpc |].
    apply (inv_done conf w s Htrace). exists g. split; [done |]. by eapply Hpc.
Qed.

Lemma session_ends_with_one_ConnectionClose_witness :
  run demo_conf demo_world demo_sched = Some demo_final
  /\ pc demo_final = Exited true
  /\ ~ In MsgClose (wire (trace demo_final))
  /\ queue demo_final = [].
Proof.
  assert (run demo_conf demo_world demo_sched = Some demo_final) as Hrun
    by (vm_compute; reflexivity).
  split; [exact Hrun |]. split; [reflexivity |].
  destruct (session_ends_with_one_ConnectionClose demo_conf demo_world
              demo_sched demo_final Hrun eq_refl) as (_ & Hnone & Hq & _).
  exact (conj Hnone Hq).
Defined.



(** Two senders of one round at work at the same time: in [demo_midway] the
    senders of [a.txt] and [sub/b.txt] have both sent their File message and
    neither has returned, and either of them can take the next step. *)
Example demo_round_is_concurrent :
  run demo_conf demo_world (take 9 demo_sched) = Some demo_midway
  /\ map (fun g => (g_round g, is_running g)) (senders demo_midway)
     = [(0, true); (0, true)]
  /\ is_Some (step demo_conf demo_world (Sender 0) demo_midway)
  /\ is_Some (step demo_conf demo_world (Sender 1) demo_midway)
  /\ step demo_conf demo_world Main demo_midway = None.
Proof.
  split; [exact demo_run_midway |]. split; [reflexivity |].
  split; [by eexists |]. split; [by eexists |]. reflexivity.
Qed.

(** ** The claims about one file *)







(** ** Failures *)

(** A tree with a single file that cannot be opened when its turn comes. *)
Definition missing_world : World :=
  {| net_Connect := true;
     ReadDir_root := Some [InfoFile "gone.txt" 4];
     os_Open := fun _ => None |}.

Definition gone_txt : File :=
  {| ID := 1; FConnectionID := 0; FileSize := 4; Name := "gone.txt";
     RelativePath := [] |}.

(** What [sendFile] does when [os.Open] fails: it prints the error and goes
    on, sends the File message, and only returns when the first [Read] on
    the nil file fails. *)
Lemma sendFile_open_failure (conf : Config) (w : World) (file : File) :
  os_Open w (FullFilePath file conf) = None ->
  sendFile conf w 3 file
  = Some [Print (OutFileHeader (RelativeFilePath file conf) (FileSize file));
          Print (ErrOpening (RelativeFilePath file conf));
          Emit (MsgFile file);
          Print (ErrReadingFile (RelativeFilePath file conf));
          Print OutBarDone].
Proof. intros Hopen. unfold sendFile. simpl. by rewrite Hopen. Qed.

(** C4: the code at the failing input.  [gone.txt] is enumerated and cannot
    be opened; [sendFile] reports the open error and still sends the File
    message of the descriptor, and the message is on the wire of the
    session.  No FileChunk message follows. *)
Theorem open_failure_still_sends_File :
  files (enumerate demo_conf missing_world) = [gone_txt]
  /\ os_Open missing_world (FullFilePath gone_txt demo_conf) = None
  /\ sendFile demo_conf missing_world 3 gone_txt
     = Some [Print (OutFileHeader ["gone.txt"%string] 4);
             Print (ErrOpening ["gone.txt"%string]);
             Emit (MsgFile gone_txt);
             Print (ErrReadingFile ["gone.txt"%string]);
             Print OutBarDone]
  /\ (wire ∘ trace) <$> run demo_conf missing_world
                          [Main; Main; Main; Main; Main; Main;
                           Sender 0; Sender 0; Main; Main; Main]
     = Some [MsgConfig demo_conf; MsgFile gone_txt; MsgConnectionClose 0].
Proof. repeat split; reflexivity. Qed.


Lemma effects_of_In_send i m tr :
  In (EvSend (Sender i) m) tr -> In m (sent_by i tr).
Proof.
  unfold sent_by. induction tr as [| e tr IH]; simpl; [done |].
  destruct e as [[| j] m' | [| j] o' | | |]; simpl;
    try (intros [? | ?]; [done | by apply IH]).
  - destruct (decide (j = i)) as [-> | Hne]; simpl.
    + intros [[= ->] | ?]; [by left | right; by apply IH].
    + intros [? | ?]; [by simplify_eq | by apply IH].
  - destruct (decide (j = i)) as [-> | Hne]; simpl;
      (intros [? | ?]; [done | by apply IH]).
Qed.

Lemma init_buffer host port dir threads :
  0 < ReadBufferSize (init host port dir threads).
Proof. simpl. lia. Qed.

(** A sender that has returned has produced the effects of a complete
    [sendFile]. *)
Lemma returned_sender_complete (conf : Config) (w : World) sched s i g fuel effs :
  run conf w sched = Some s ->
  senders s !! i = Some g -> g_pc g = Returned ->
  sendFile conf w fuel (g_file g) = Some effs ->
  effects_of i (trace s) = effs.
Proof.
  intros Hrun Hi Hret Hall.
  pose proof (trace_inv_run conf w sched s Hrun) as Htrace.
  pose proof (inv_reach conf w s Htrace i g Hi) as Hreach. rewrite Hret in Hreach.
  by eapply sender_reach_Returned.
Qed.



(** ** Termination of the round loop *)

Lemma enumerate_ids_NoDup (conf : Config) (w : World) :
  NoDup (map ID (files (enumerate conf w))).
Proof.
  unfold enumerate.
  pose proof (collectFiles_collected conf [] (ReadDir_root w)
                {| next_uuid := S (ConnectionID conf); files := [];
                   collect_err := [] |}) as H.
  rewrite app_nil_r in H. rewrite H. simpl.
  rewrite descriptors_ids. apply NoDup_ListNoDup, List.seq_NoDup.
Qed.

(** Without threads the main goroutine can always take one more step, once
    connected. *)
Lemma idle_main_step (conf : Config) (w : World) sched s :
  Threads conf = 0%N -> net_Connect w = true ->
  run conf w sched = Some s ->
  is_Some (step conf w Main s).
Proof.
  intros HT Hnet Hrun.
  pose proof (sched_inv_run conf w sched s Hrun) as Hsched.
  destruct (idle_inv_run conf w sched s HT Hrun) as (Hsn & Hb & Hidle).
  pose proof (inv_pc conf w s Hsched) as Hpc.
  pose proof (inv_connect conf w s Hsched) as Hconn.
  simpl. unfold main_step.
  destruct (pc s) as [| | | | i | | | | [] |] eqn:Hs; try done;
    try (by eexists).
  - rewrite Hnet. by eexists.
  - rewrite HT. destruct (i <? 0)%N; [destruct (queue s) |]; by eexists.
  - rewrite (wg_counter_running conf w) by (try done; by apply cur_round_lt).
    rewrite Hsn, Hb. by eexists.
  - by rewrite Hnet in Hconn.
Qed.

Lemma idle_runs_for_ever (conf : Config) (w : World) n :
  Threads conf = 0%N -> net_Connect w = true ->
  forall sched s, run conf w sched = Some s ->
                  is_Some (exec conf w (replicate n Main) s).
Proof.
  intros HT Hnet. induction n as [| n IH]; intros sched s Hrun; [by eexists |].
  destruct (idle_main_step conf w sched s HT Hnet Hrun) as [s1 Hstep].
  simpl in *. rewrite Hstep. apply (IH (sched ++ [Main])).
  eapply run_app; [done |]. simpl. by rewrite Hstep.
Qed.

(** C10.  With the configuration [init] builds from the flags: when [-t]
    is at least 1, every run is finite (no schedule is longer than the
    measure of the initial state), a run in which no goroutine can move has
    reached the end of [RunE], every run can be carried on to that end, and
    at the end the [go] statements executed are one per enumerated file, in
    queue order, the files being pairwise distinct; when [-t] is 0, which
    the flag accepts, no goroutine is ever started and [RunE] never gets
    past the loop: once connected the main goroutine can always take one
    more step, for any number of steps. *)
Theorem round_loop_terminates_unless_no_threads (host : string) (port : N)
        (dir : path) (threads : N) (w : World) :
  let conf := init host port dir threads in
  ((1 <= threads)%N ->
   forall sched s,
     run conf w sched = Some s ->
     length sched <= measure conf w initial
     /\ ((forall a, step conf w a s = None) -> exists ok, pc s = Exited ok)
     /\ (exists sched' s',
            exec conf w sched' s = Some s' /\ pc s' = Exited (net_Connect w))
     /\ (pc s = Exited true ->
         queue s = []
         /\ started (trace s) = files (enumerate conf w)
         /\ NoDup (map ID (started (trace s)))))
  /\ (threads = 0%N ->
      forall sched s,
        run conf w sched = Some s ->
        senders s = [] /\ started (trace s) = []
        /\ pc s <> AtSendClose /\ pc s <> AtReturn /\ pc s <> Exited true
        /\ (net_Connect w = true ->
            forall n, is_Some (exec conf w (replicate n Main) s))).
Proof.
  intros conf. split.
  - intros HT sched s Hrun.
    pose proof (sched_inv_run conf w sched s Hrun) as Hsched.
    pose proof (trace_inv_run conf w sched s Hrun) as Htrace.
    split; [| split; [| split]].
    + pose proof (measure_exec conf w sched initial s HT (init_buffer _ _ _ _)
                    (sched_inv_initial conf w) Hrun). lia.
    + intros Hstuck.
      destruct (pc s) as [| | | | i | | | | ok |] eqn:Hs;
        try (destruct (progress conf w s Hsched) as [a [s1 Hstep]];
             [intros ok; by rewrite Hs | by rewrite Hstuck in Hstep]).
      by exists ok.
    + destruct (can_finish conf w s HT (init_buffer _ _ _ _) Hsched)
        as (sched' & s' & Hexec & ok & Hexit).
      exists sched', s'. split; [done |].
      pose proof (run_app conf w sched sched' s s' Hrun Hexec) as Hrun'.
      pose proof (inv_connect conf w s' (sched_inv_run conf w _ s' Hrun')) as Hconn.
      rewrite Hexit in Hconn. rewrite Hexit. by destruct ok; rewrite Hconn.
    + intros Hexit.
      pose proof (inv_break conf w s Hsched) as Hbreak.
      pose proof (inv_queue conf w s Hsched) as Hqueue.
      rewrite Hexit in Hbreak, Hqueue. destruct Hbreak as [_ Hq].
      rewrite Hq, app_nil_r in Hqueue.
      rewrite (inv_started conf w s Htrace), Hqueue.
      split; [done |]. split; [done |]. apply enumerate_ids_NoDup.
  - intros HT sched s Hrun.
    assert (Threads conf = 0%N) as HT' by done.
    pose proof (trace_inv_run conf w sched s Hrun) as Htrace.
    destruct (idle_inv_run conf w sched s HT' Hrun) as (Hsn & Hb & Hidle).
    split; [done |]. split; [by rewrite (inv_started conf w s Htrace), Hsn |].
    split; [intros Hs; by rewrite Hs in Hidle |].
    split; [intros Hs; by rewrite Hs in Hidle |].
    split; [intros Hs; by rewrite Hs in Hidle |].
    intros Hnet n. by eapply idle_runs_for_ever.
Qed.

Definition idle_conf : Config := init "receiver" 9000 ["src"%string] 0.

Lemma round_loop_terminates_unless_no_threads_witness :
  ((1 <= 2)%N
   /\ run demo_conf demo_world demo_sched = Some demo_final
   /\ length demo_sched <= measure demo_conf demo_world initial)
  /\ (run idle_conf demo_world (replicate 40 Main) <> None
      /\ forall s, run idle_conf demo_world (replicate 40 Main) = Some s ->
                   senders s = []).
Proof.
  assert (run demo_conf demo_world demo_sched = Some demo_final) as Hrun
    by (vm_compute; reflexivity).
  destruct (round_loop_terminates_unless_no_threads "receiver" 9000
              ["src"%string] 2 demo_world) as [Hpos _].
  destruct (round_loop_terminates_unless_no_threads "receiver" 9000
              ["src"%string] 0 demo_world) as [_ Hzero].
  split.
  - split; [lia |]. split; [exact Hrun |].
    assert (1 <= 2)%N as Hle by lia.
    destruct (Hpos Hle demo_sched demo_final Hrun) as [Hlen _]. exact Hlen.
  - split; [vm_compute; discriminate |].
    intros s Hs. destruct (Hzero eq_refl (replicate 40 Main) s Hs) as [Hsn _].
    exact Hsn.
Defined.

(** * Further properties of the sender *)

(** ** [sendFile] on its own *)


Section SendFileAlone.
Variable conf : Config.
Variable w : World.








(** X3.  With a read buffer of zero bytes, a file that opens and whose reads
    do not fail is never finished: every [Read] answers [(0, nil)], so
    [sendFile] does not return, whatever the size of the file, and it sends
    one empty chunk after another. *)
Theorem sendFile_zero_buffer_never_returns (file : File) (h0 : Handle) :
  ReadBufferSize conf = 0 ->
  os_Open w (FullFilePath file conf) = Some h0 ->
  h_fault h0 = None ->
  (forall fuel, sendFile conf w fuel file = None)
  /\ (forall n, exists last effs,
         sender_reach conf w file (AtRead (Some h0) n last) effs
         /\ chunks_of (emitted effs)
            = map (fun k => {| CID := ID file;
                               CConnectionID := ConnectionID conf;
                               Data := []; Seq := k |}) (seq 0 n)).
Proof.
  intros Hb Hopen Hfault. destruct h0 as [data fault]. simpl in Hfault. subst fault.
  assert (forall n last,
             exists last' outs,
               sendFile_step conf w file
                 (AtRead (Some {| h_data := data; h_fault := None |}) n last)
               = Some (AtRead (Some {| h_data := data; h_fault := None |}) (S n) last',
                       map Print outs
                       ++ [Emit (MsgFileChunk {| CID := ID file;
                                                 CConnectionID := ConnectionID conf;
                                                 Data := []; Seq := n |})]))
    as Hloop.
  { intros n last. unfold sendFile_step.
    assert (File_Read (Some {| h_data := data; h_fault := None |})
              (ReadBufferSize conf)
            = (0, [], None, Some {| h_data := data; h_fault := None |})) as ->
      by (by rewrite Hb).
    destruct (GetProgress file n 25 conf) as [bar progress]. simpl.
    destruct (Nat.ltb last progress).
    - by exists progress, [OutBar bar].
    - by exists last, []. }
  split.
  - assert (forall fuel n last,
               sendFile_from conf w fuel file
                 (AtRead (Some {| h_data := data; h_fault := None |}) n last)
               = None) as Hnone.
    { induction fuel as [| fuel IH]; intros n last; [done |].
      destruct (Hloop n last) as (last' & outs & Hstep).
      cbn [sendFile_from]. by rewrite Hstep, IH. }
    intros [| fuel]; [done |]. unfold sendFile. cbn [sendFile_from sendFile_step].
    by rewrite Hopen, Hnone.
  - induction n as [| n (last & effs & Hreach & Hchunks)].
    + exists 0. eexists. split.
      * eapply (reach_step _ _ _ AtOpen []); [constructor |].
        simpl. by rewrite Hopen.
      * done.
    + destruct (Hloop n last) as (last' & outs & Hstep).
      exists last'. eexists. split; [by eapply reach_step |].
      rewrite emitted_app, chunks_of_app, Hchunks, emitted_app, chunks_of_app.
      assert (chunks_of (emitted (map Print outs)) = []) as ->
        by (clear; induction outs as [| o outs IH]; [done | exact IH]).
      rewrite seq_S, map_app. done.
Qed.

End SendFileAlone.

(** The files [a.txt] and [c.txt] of the session above, as [collectFiles]
    describes them and as [os.Open] gives them. *)
Definition a_txt : File :=
  {| ID := 1; FConnectionID := 0; FileSize := 7; Name := "a.txt";
     RelativePath := [] |}.

Definition c_txt : File :=
  {| ID := 3; FConnectionID := 0; FileSize := 12; Name := "c.txt";
     RelativePath := [] |}.

Definition a_txt_handle : Handle :=
  Eval vm_compute in
    default (mkHandle [] None) (os_Open demo_world (FullFilePath a_txt demo_conf)).


(** The configuration of the session above with a read buffer of no
    bytes. *)
Definition unbuffered_conf : Config :=
  {| Hostname := "receiver"; Port := 9000; WorkingDirectory := ["src"%string];
     Threads := 2; ConnectionID := 0; ReadBufferSize := 0 |}.



Lemma sendFile_zero_buffer_never_returns_witness :
  sendFile unbuffered_conf demo_world 1000 a_txt = None.
Proof.
  destruct (sendFile_zero_buffer_never_returns unbuffered_conf demo_world a_txt
              a_txt_handle) as [Hnone _].
  - reflexivity.
  - vm_compute. reflexivity.
  - reflexivity.
  - exact (Hnone 1000).
Defined.

(** ** [sendFile]: the console, and a file that does not open *)

Section SendFileConsole.
Variable conf : Config.
Variable w : World.

(** Console lines other than the header line of a file and the line of the
    completed progress bar. *)
Definition no_header_no_bar (effs : list Effect) : Prop :=
  ~ In (Print OutBarDone) effs
  /\ forall rel size, ~ In (Print (OutFileHeader rel size)) effs.

Lemma no_header_no_bar_app effs1 effs2 :
  no_header_no_bar effs1 -> no_header_no_bar effs2 ->
  no_header_no_bar (effs1 ++ effs2).
Proof.
  intros [Hb1 Hh1] [Hb2 Hh2]. split.
  - intros [? | ?]%in_app_iff; done.
  - intros rel size [? | ?]%in_app_iff; [by eapply Hh1 | by eapply Hh2].
Qed.

Definition console_inv (file : File) (pc : SenderPC) (effs : list Effect) : Prop :=
  let header := Print (OutFileHeader (RelativeFilePath file conf) (FileSize file)) in
  match pc with
  | AtOpen => effs = []
  | AtRead _ _ _ => exists mid, effs = header :: mid /\ no_header_no_bar mid
  | Returned =>
      exists mid, effs = header :: mid ++ [Print OutBarDone]
                  /\ no_header_no_bar mid
  end.

Lemma console_inv_reach file pc effs :
  sender_reach conf w file pc effs -> console_inv file pc effs.
Proof.
  induction 1 as [| pc effs pc' eff _ IH Hstep]; [done |].
  destruct pc as [| fp sentChunks lastPercentage |]; [| | done].
  - injection Hstep as <- <-. simpl in IH. subst effs. simpl. eexists.
    split; [done |].
    destruct (os_Open w _); simpl; (split; [| intros rel size]);
      intros H; repeat (destruct H as [H | H]; [discriminate |]); done.
  - destruct IH as (mid & -> & Hmid).
    apply sendFile_step_AtRead in Hstep as (n & buf & err & fp' & _ & Hcases).
    destruct Hcases as [(_ & _ & -> & ->) | [(_ & -> & ->) | (_ & _ & outs & last' & -> & Houts & ->)]];
      simpl.
    + by exists mid.
    + exists (mid ++ [Print (ErrReadingFile (RelativeFilePath file conf))]).
      split; [by rewrite <- (assoc_L (++)) |].
      apply no_header_no_bar_app; [done |].
      split; [| intros rel size]; by intros [? | []].
    + eexists. split; [done |]. apply no_header_no_bar_app; [done |].
      destruct Houts as [-> | [bar ->]]; simpl; (split; [| intros rel size]);
        intros H; repeat (destruct H as [H | H]; [discriminate |]); done.
Qed.

(** X4.  What [sendFile] prints, on every path: the header line of the
    file first and once, and the line of the completed progress bar last
    and once; this also holds when the file could not be opened or a read
    failed, where the completed bar follows the error message. *)
Theorem sendFile_prints_header_first_and_bar_last (file : File) (fuel : nat)
        (effs : list Effect) :
  sendFile conf w fuel file = Some effs ->
  exists mid,
    effs = Print (OutFileHeader (RelativeFilePath file conf) (FileSize file))
           :: mid ++ [Print OutBarDone]
    /\ ~ In (Print OutBarDone) mid
    /\ forall rel size, ~ In (Print (OutFileHeader rel size)) mid.
Proof.
  intros Hrun%sendFile_reach%console_inv_reach. simpl in Hrun.
  destruct Hrun as (mid & -> & Hb & Hh). by exists mid.
Qed.

(** X5.  A descriptor whose file does not open, in a session: whatever
    the interleaving, once its sender has returned the sender has put
    exactly one message on the wire, the File message of the descriptor,
    and no chunk; it has printed the open error, and the read error of the
    first [Read] on the nil file. *)
Theorem open_failure_sends_the_File_message_alone
        (sched : list Actor) (s : State) (i : nat) (g : Goroutine) :
  run conf w sched = Some s ->
  senders s !! i = Some g ->
  g_pc g = Returned ->
  os_Open w (FullFilePath (g_file g) conf) = None ->
  sent_by i (trace s) = [MsgFile (g_file g)]
  /\ effects_of i (trace s)
     = [Print (OutFileHeader (RelativeFilePath (g_file g) conf)
                 (FileSize (g_file g)));
        Print (ErrOpening (RelativeFilePath (g_file g) conf));
        Emit (MsgFile (g_file g));
        Print (ErrReadingFile (RelativeFilePath (g_file g) conf));
        Print OutBarDone].
Proof.
  intros Hrun Hi Hret Hopen.
  pose proof (returned_sender_complete conf w sched s i g 3 _ Hrun Hi Hret
                (sendFile_open_failure conf w (g_file g) Hopen)) as Heffs.
  split; [| done]. unfold sent_by. by rewrite Heffs.
Qed.

End SendFileConsole.

Definition a_txt_effects : list Effect :=
  Eval vm_compute in default [] (sendFile demo_conf demo_world 10 a_txt).

Definition missing_final : State :=
  Eval vm_compute in
    default initial
      (run demo_conf missing_world
         [Main; Main; Main; Main; Main; Main; Sender 0; Sender 0;
          Main; Main; Main]).

Lemma sendFile_prints_header_first_and_bar_last_witness :
  sendFile demo_conf demo_world 10 a_txt = Some a_txt_effects
  /\ exists mid,
      a_txt_effects
      = Print (OutFileHeader ["a.txt"%string] 7) :: mid ++ [Print OutBarDone].
Proof.
  assert (sendFile demo_conf demo_world 10 a_txt = Some a_txt_effects) as Hrun
    by (vm_compute; reflexivity).
  split; [exact Hrun |].
  destruct (sendFile_prints_header_first_and_bar_last demo_conf demo_world
              a_txt 10 a_txt_effects Hrun) as (mid & Heq & _).
  exists mid. exact Heq.
Defined.

Lemma open_failure_sends_the_File_message_alone_witness :
  run demo_conf missing_world
    [Main; Main; Main; Main; Main; Main; Sender 0; Sender 0; Main; Main; Main]
  = Some missing_final
  /\ sent_by 0 (trace missing_final) = [MsgFile gone_txt].
Proof.
  assert (run demo_conf missing_world
            [Main; Main; Main; Main; Main; Main; Sender 0; Sender 0;
             Main; Main; Main] = Some missing_final) as Hrun
    by (vm_compute; reflexivity).
  split; [exact Hrun |].
  destruct (open_failure_sends_the_File_message_alone demo_conf missing_world
              _ missing_final 0
              {| g_file := gone_txt; g_round := 0; g_pc := Returned |}
              Hrun eq_refl eq_refl eq_refl) as [Hsent _].
  exact Hsent.
Defined.

(** ** The session: where the messages come from *)

Section SessionFrames.
Variable conf : Config.
Variable w : World.

(** A property of the states that holds at the start and is kept by every
    step from a state of a run holds in every state of a run. *)
Lemma run_invariant (P : State -> Prop) :
  P initial ->
  (forall a s s',
      sched_inv conf w s -> trace_inv conf w s -> P s ->
      step conf w a s = Some s' -> P s') ->
  forall sched s, run conf w sched = Some s -> P s.
Proof.
  intros Hinit Hstep sched. unfold run.
  assert (sched_inv conf w initial /\ trace_inv conf w initial /\ P initial)
    as H0 by (split; [apply sched_inv_initial | split; [apply trace_inv_initial | done]]).
  revert H0. generalize initial as s0.
  induction sched as [| a sched IH]; intros s0 (Hs & Ht & HP) s; simpl.
  - by intros [= <-].
  - destruct (step conf w a s0) as [s1 |] eqn:Hs1; [| done].
    apply IH. split; [by eapply sched_inv_step |]. split; [| by eapply Hstep].
    destruct a; [by eapply trace_inv_main | by eapply trace_inv_sender].
Qed.

(** What a step of the main goroutine does to the trace and to the
    goroutines: it starts one goroutine with a [go], or it adds events of
    its own and leaves the goroutines alone; the only messages it sends are
    the Config message and the ConnectionClose message. *)
Lemma main_step_cases s s' :
  main_step conf w s = Some s' ->
  exists evs,
    trace s' = trace s ++ evs
    /\ ((Forall main_event evs
         /\ senders s' = senders s
         /\ forall m, In (EvSend Main m) evs ->
                      m = MsgConfig conf
                      \/ m = MsgConnectionClose (ConnectionID conf))
        \/ exists file,
            evs = [EvGo (length (senders s)) (cur_round s) file]
            /\ senders s' = senders s ++ [mkGoroutine file (cur_round s) AtOpen]).
Proof.
  unfold main_step.
  assert (forall tr : list Event, tr = tr ++ []) as Hnil
    by (intros tr; by rewrite app_nil_r).
  destruct (pc s) as [| | | | i | | | | ok |]; try done.
  - destruct (net_Connect w); intros [= <-]; exists []; simpl;
      (split; [done |]); left; by repeat split.
  - intros [= <-]. eexists. split; [done |]. left. simpl.
    split; [by repeat constructor |]. split; [done |].
    intros m [[= <-] | []]. by left.
  - intros [= <-]. eexists. split; [done |]. left. simpl.
    split; [| split; [done |]].
    + apply Forall_forall. by intros e (o & <- & _)%in_map_iff.
    + by intros m (o & ? & _)%in_map_iff.
  - intros [= <-]. exists []. simpl. split; [done |]. left. by repeat split.
  - destruct (i <? Threads conf)%N; [destruct (queue s) as [| file rest] |];
      intros [= <-]; simpl.
    + exists []. split; [done |]. left. by repeat split.
    + eexists. split; [done |]. right. by exists file.
    + exists []. split; [done |]. left. by repeat split.
  - destruct (wg_counter s (cur_round s)); [| done].
    destruct (breakAll s); intros [= <-]; exists []; simpl;
      (split; [done |]); left; by repeat split.
  - intros [= <-]. eexists. split; [done |]. left. simpl.
    split; [by repeat constructor |]. split; [done |].
    intros m [? | [[= <-] | []]]; [done | by right].
  - intros [= <-]. eexists. split; [done |]. left. simpl.
    split; [by repeat constructor |]. split; [done |]. by intros m [? | []].
Qed.

(** What a step of sender [i] adds to the trace. *)
Lemma sender_step_trace i s s' :
  sender_step conf w i s = Some s' ->
  exists g pc' eff done,
    senders s !! i = Some g
    /\ sendFile_step conf w (g_file g) (g_pc g) = Some (pc', eff)
    /\ senders s' = <[i := mkGoroutine (g_file g) (g_round g) pc']> (senders s)
    /\ trace s' = trace s ++ map (effect_event (Sender i)) eff ++ done
    /\ (done = [] \/ done = [EvDone i]).
Proof.
  intros (g & pc' & eff & Hi & Hsf & _ & _ & Hcases)%sender_step_Some.
  simpl in Hcases.
  destruct Hcases as [(_ & ->) | [(_ & _ & ->) | (_ & c & _ & ->)]]; simpl.
  - exists g, pc', eff, []. rewrite app_nil_r. repeat split; auto.
  - exists g, pc', eff, []. rewrite app_nil_r. repeat split; auto.
  - exists g, pc', eff, [EvDone i]. rewrite (assoc_L (++)). repeat split; auto.
Qed.

Definition main_sends (s : State) : Prop :=
  forall m, In (EvSend Main m) (trace s) ->
            m = MsgConfig conf \/ m = MsgConnectionClose (ConnectionID conf).

Lemma main_sends_run sched s : run conf w sched = Some s -> main_sends s.
Proof.
  apply run_invariant; [by intros m [] |].
  intros [| i] s0 s1 _ _ IH Hstep m; simpl in Hstep.
  - apply main_step_cases in Hstep
      as (evs & -> & [(_ & _ & Hevs) | (file & -> & _)]);
      (intros [H | H]%in_app_iff; [by apply IH |]);
      [by apply Hevs | by destruct H].
  - apply sender_step_trace in Hstep
      as (g & pc' & eff & dn & _ & _ & _ & -> & Hdn).
    intros [H | [H | H]%in_app_iff]%in_app_iff; [by apply IH | |].
    + apply in_effect_events in H as [[m' H] | [o H]]; done.
    + destruct Hdn as [-> | ->]; [done | by destruct H].
Qed.

Lemma wire_In m tr : In m (wire tr) -> exists a, In (EvSend a m) tr.
Proof.
  induction tr as [| e tr IH]; simpl; [done |].
  destruct e as [a m' | | | |]; simpl;
    try (intros H; destruct (IH H) as [a' Ha]; exists a'; by right).
  intros [<- | H]; [exists a; by left |].
  destruct (IH H) as [a' Ha]. exists a'. by right.
Qed.

(** A message sent by sender [i] is the File message of its file or a chunk
    of its file. *)
Lemma sender_frame s i m :
  trace_inv conf w s ->
  In (EvSend (Sender i) m) (trace s) ->
  exists g, senders s !! i = Some g
            /\ (m = MsgFile (g_file g)
                \/ exists c, m = MsgFileChunk c
                             /\ CID c = ID (g_file g)
                             /\ CConnectionID c = ConnectionID conf).
Proof.
  intros Htrace Hin%effects_of_In_send. unfold sent_by in Hin.
  destruct (senders s !! i) as [g |] eqn:Hi; cycle 1.
  { apply lookup_ge_None in Hi. by rewrite (inv_fresh conf w s Htrace i Hi) in Hin. }
  exists g. split; [done |].
  pose proof (inv_reach conf w s Htrace i g Hi) as Hreach.
  apply sender_reach_emitted in Hreach as [Hnil | (chunks & Hem & _ & Hall & _)].
  - by rewrite Hnil in Hin.
  - rewrite Hem in Hin. destruct Hin as [<- | Hin]; [by left |]. right.
    apply in_map_iff in Hin as (c & <- & Hc). exists c. split; [done |].
    rewrite Forall_forall in Hall. by destruct (Hall c Hc) as (? & ? & _).
Qed.

(** Every goroutine runs on a file of the enumeration. *)
Lemma sender_file_enumerated s i g :
  sched_inv conf w s -> senders s !! i = Some g ->
  In (g_file g) (files (enumerate conf w)).
Proof.
  intros Hsched Hi.
  pose proof (inv_queue conf w s Hsched) as Hq.
  pose proof (inv_pc conf w s Hsched) as Hpc.
  assert (In (g_file g) (map g_file (senders s))) as Hin.
  { apply in_map. apply list_elem_of_In. by eapply list_elem_of_lookup_2. }
  destruct (pc s) as [| | | | ? | | | | [] |];
    try (rewrite <- Hq; apply in_app_iff; by left);
    try (destruct Hpc as [_ Hnil]; by rewrite Hnil in Hi); done.
Qed.

Lemma descriptors_conn cid n l :
  Forall (fun f => FConnectionID f = cid) (descriptors cid n l).
Proof.
  revert n. induction l as [| [[rel name] size] l IH]; intros n; simpl;
    constructor; [done | apply IH].
Qed.

Lemma enumerate_conn :
  Forall (fun f => FConnectionID f = ConnectionID conf) (files (enumerate conf w)).
Proof.
  unfold enumerate.
  pose proof (collectFiles_collected conf [] (ReadDir_root w)
                {| next_uuid := S (ConnectionID conf); files := [];
                   collect_err := [] |}) as H.
  rewrite app_nil_r in H. rewrite H. simpl. apply descriptors_conn.
Qed.

(** X6.  In every state of every run, every message on the wire belongs to
    the session: a Config message is the session's configuration, a File
    message is a descriptor of the enumeration and carries the session's
    connection identifier, a FileChunk message carries that identifier and
    the identifier of an enumerated file, a ConnectionClose message carries
    the session's identifier; there is no Close message. *)
Theorem frames_belong_to_the_session (sched : list Actor) (s : State) :
  run conf w sched = Some s ->
  Forall (fun m =>
            match m with
            | MsgConfig c => c = conf
            | MsgFile f =>
                In f (files (enumerate conf w))
                /\ FConnectionID f = ConnectionID conf
            | MsgFileChunk c =>
                CConnectionID c = ConnectionID conf
                /\ exists f, In f (files (enumerate conf w)) /\ CID c = ID f
            | MsgClose => False
            | MsgConnectionClose id => id = ConnectionID conf
            end) (wire (trace s)).
Proof.
  intros Hrun.
  pose proof (sched_inv_run conf w sched s Hrun) as Hsched.
  pose proof (trace_inv_run conf w sched s Hrun) as Htrace.
  pose proof (main_sends_run sched s Hrun) as Hmain.
  apply Forall_forall. intros m [[| i] Hin]%wire_In.
  - by destruct (Hmain m Hin) as [-> | ->].
  - destruct (sender_frame s i m Htrace Hin) as (g & Hi & Hm).
    pose proof (sender_file_enumerated s i g Hsched Hi) as Hfile.
    pose proof enumerate_conn as Hconn. rewrite Forall_forall in Hconn.
    destruct Hm as [-> | (c & -> & Hid & Hcid)].
    + split; [done | by apply Hconn].
    + split; [done |]. by exists (g_file g).
Qed.

(** X7.  When the enumeration finds no file (an empty tree, or a root that
    cannot be read), a session that runs to its end puts exactly two
    messages on the wire: the Config message and the ConnectionClose
    message; no goroutine is started. *)
Theorem empty_tree_sends_Config_and_ConnectionClose (sched : list Actor)
        (s : State) :
  files (enumerate conf w) = [] ->
  run conf w sched = Some s ->
  pc s = Exited true ->
  wire (trace s) = [MsgConfig conf; MsgConnectionClose (ConnectionID conf)]
  /\ senders s = []
  /\ forall j r file, ~ In (EvGo j r file) (trace s).
Proof.
  intros Hnone Hrun Hexit.
  pose proof (sched_inv_run conf w sched s Hrun) as Hsched.
  pose proof (trace_inv_run conf w sched s Hrun) as Htrace.
  pose proof (main_sends_run sched s Hrun) as Hmain.
  pose proof (inv_queue conf w s Hsched) as Hq.
  pose proof (inv_wire conf w s Htrace) as Hwire.
  rewrite Hexit in Hq, Hwire. rewrite Hnone in Hq.
  apply app_eq_nil in Hq as [Hsn%map_eq_nil _].
  destruct Hwire as (tr & Htr & (body & Hw & Hbody) & _).
  assert (body = []) as ->.
  { destruct body as [| m body]; [done |]. exfalso.
    assert (In m (wire (trace s))) as Hin.
    { rewrite Htr, wire_app, Hw. right. apply in_app_iff. left. by left. }
    inversion Hbody as [| ? ? Hm _]; subst.
    apply wire_In in Hin as [[| i] Hin].
    - by destruct (Hmain m Hin) as [-> | ->].
    - destruct (sender_frame s i m Htrace Hin) as (g & Hi & _).
      by rewrite Hsn in Hi. }
  split; [by rewrite Htr, wire_app, Hw |]. split; [done |].
  intros j r file Hgo. apply (inv_go conf w s Htrace) in Hgo as (g & Hj & _).
  by rewrite Hsn in Hj.
Qed.

End SessionFrames.

(** A working directory that cannot be read, and the session on it, run to
    its end. *)
Definition unreadable_world : World :=
  {| net_Connect := true; ReadDir_root := None; os_Open := fun _ => None |}.

Definition unreadable_final : State :=
  Eval vm_compute in
    default initial (run demo_conf unreadable_world (replicate 8 Main)).

Lemma frames_belong_to_the_session_witness :
  run demo_conf demo_world demo_sched = Some demo_final
  /\ Forall (fun m => match m with
                      | MsgFileChunk c => CConnectionID c = 0
                      | MsgClose => False
                      | _ => True
                      end) (wire (trace demo_final)).
Proof.
  assert (run demo_conf demo_world demo_sched = Some demo_final) as Hrun
    by (vm_compute; reflexivity).
  split; [exact Hrun |].
  pose proof (frames_belong_to_the_session demo_conf demo_world demo_sched
                demo_final Hrun) as Hall.
  revert Hall. apply Forall_impl.
  intros [c | f | c | | id] H; [exact I | exact I | exact (proj1 H) | exact H | exact I].
Defined.

Lemma empty_tree_sends_Config_and_ConnectionClose_witness :
  run demo_conf unreadable_world (replicate 8 Main) = Some unreadable_final
  /\ wire (trace unreadable_final)
     = [MsgConfig demo_conf; MsgConnectionClose 0].
Proof.
  assert (run demo_conf unreadable_world (replicate 8 Main)
          = Some unreadable_final) as Hrun by (vm_compute; reflexivity).
  split; [exact Hrun |].
  destruct (empty_tree_sends_Config_and_ConnectionClose demo_conf
              unreadable_world (replicate 8 Main) unreadable_final)
    as [Hwire _].
  - reflexivity.
  - exact Hrun.
  - reflexivity.
  - exact Hwire.
Defined.

(** ** The session: the WaitGroups and the number of senders at work *)

Section SessionRounds.
Variable conf : Config.
Variable w : World.


(** X9.  When [ncclient.Connect] fails [RunE] returns the error at once: a
    run is the single step of the main goroutine, after which nothing has
    been sent or printed, no directory has been read, no goroutine exists,
    and nothing can move any more. *)
Theorem connect_failure_returns_at_once (sched : list Actor) (s : State) :
  net_Connect w = false ->
  run conf w sched = Some s ->
  (sched = [] /\ s = initial)
  \/ (sched = [Main]
      /\ pc s = Exited false /\ trace s = [] /\ queue s = [] /\ senders s = []
      /\ forall a, step conf w a s = None).
Proof.
  intros Hnet. unfold run. destruct sched as [| a sched]; simpl.
  - intros [= <-]. by left.
  - destruct a as [| i]; simpl; [| done].
    unfold main_step at 1. simpl. rewrite Hnet.
    destruct sched as [| a sched]; simpl.
    + intros [= <-]. right. repeat split. by intros [| i].
    + by destruct a.
Qed.

(** The goroutines that have not returned. *)
Definition active (l : list Goroutine) : nat := length (List.filter is_running l).

Lemma active_returned l :
  (forall i g, l !! i = Some g -> g_pc g = Returned) -> active l = 0.
Proof.
  unfold active. induction l as [| g l IH]; intros Hall; simpl; [done |].
  unfold is_running at 1. rewrite (Hall 0 g eq_refl).
  apply IH. intros i g' Hi. by apply (Hall (S i)).
Qed.

Lemma active_bound l n t :
  (forall i g, l !! i = Some g -> i < n -> g_pc g = Returned) ->
  length l <= n + t ->
  active l <= t.
Proof.
  intros Hold Hlen. rewrite <- (take_drop n l). unfold active.
  rewrite List.filter_app, length_app.
  pose proof (active_returned (take n l)) as H0. unfold active in H0.
  rewrite H0.
  - pose proof (List.filter_length_le is_running (drop n l)) as Hle.
    rewrite length_drop in Hle. lia.
  - intros i g Hi. apply lookup_take_Some in Hi as [Hi Hlt]. by eapply Hold.
Qed.

(** X10.  The [-t] flag bounds the number of transfers that run at the same
    time: in every state of every run at most [Threads] goroutines have not
    returned, and all of them belong to the round in progress. *)
Theorem at_most_Threads_senders_at_work (sched : list Actor) (s : State) :
  (Threads conf < 65536)%N ->
  run conf w sched = Some s ->
  active (senders s) <= T conf
  /\ forall i g, senders s !! i = Some g -> g_pc g <> Returned ->
                 g_round g = cur_round s /\ cur_round s * T conf <= i.
Proof.
  intros Hu16 Hrun.
  pose proof (sched_inv_run conf w sched s Hrun) as Hsched.
  pose proof (rounds_inv_run conf w sched s Hu16 Hrun) as [Hdiv _].
  pose proof (inv_round conf w s Hsched) as Hround.
  pose proof (inv_old conf w s Hsched) as Hold.
  assert (forall i g, senders s !! i = Some g -> i < cur_round s * T conf ->
                      g_pc g = Returned) as Hbefore.
  { intros i g Hi Hlt. apply (Hold i g Hi).
    destruct (Hdiv i g Hi) as [HT ->]. specialize (Hround i g Hi).
    assert (i `div` T conf < cur_round s)
      by (apply Nat.Div0.div_lt_upper_bound; lia).
    unfold cur_round in *. lia. }
  split.
  - apply (active_bound _ (cur_round s * T conf)); [done |].
    destruct (senders s) as [| g0 l] eqn:Hsn using rev_ind; [simpl; lia |].
    clear IHl. rewrite length_app. simpl.
    assert ((l ++ [g0]) !! length l = Some g0) as Hlast
      by (by rewrite lookup_app_r, Nat.sub_diag by done).
    destruct (Hdiv _ _ Hlast) as [HT Hr]. specialize (Hround _ _ Hlast).
    rewrite Hr in Hround.
    pose proof (Nat.div_mod_eq (length l) (T conf)) as Hdm.
    pose proof (Nat.mod_upper_bound (length l) (T conf) HT) as Hmod.
    unfold cur_round. destruct (wgs s) as [| c0 ws]; simpl in *; [lia |]. nia.
  - intros i g Hi Hrun'. specialize (Hround i g Hi).
    assert (~ i < cur_round s * T conf) as Hge
      by (intros Hlt; by apply Hrun', (Hbefore i g Hi)).
    split; [| lia].
    destruct (decide (S (g_round g) < length (wgs s))) as [Hlt | ?].
    + by destruct Hrun'; apply (Hold i g Hi).
    + unfold cur_round. lia.
Qed.

End SessionRounds.

(** A receiver that cannot be reached. *)
Definition offline_world : World :=
  {| net_Connect := false;
     ReadDir_root := ReadDir_root demo_world;
     os_Open := os_Open demo_world |}.

Definition offline_final : State :=
  Eval vm_compute in default initial (run demo_conf offline_world [Main]).


Lemma connect_failure_returns_at_once_witness :
  run demo_conf offline_world [Main] = Some offline_final
  /\ pc offline_final = Exited false
  /\ trace offline_final = [].
Proof.
  assert (run demo_conf offline_world [Main] = Some offline_final) as Hrun
    by (vm_compute; reflexivity).
  split; [exact Hrun |].
  destruct (connect_failure_returns_at_once demo_conf offline_world [Main]
              offline_final eq_refl Hrun)
    as [[Hnil _] | (_ & Hpc & Htr & _)]; [discriminate |].
  split; [exact Hpc | exact Htr].
Defined.

Lemma at_most_Threads_senders_at_work_witness :
  run demo_conf demo_world (take 9 demo_sched) = Some demo_midway
  /\ active (senders demo_midway) <= 2.
Proof.
  assert (run demo_conf demo_world (take 9 demo_sched) = Some demo_midway)
    as Hrun by (vm_compute; reflexivity).
  split; [exact Hrun |].
  destruct (at_most_Threads_senders_at_work demo_conf demo_world
              (take 9 demo_sched) demo_midway) as [Hle _].
  - vm_compute. reflexivity.
  - exact Hrun.
  - exact Hle.
Defined.

(** ** The session: the File messages, and the order of the rounds *)

(** The File messages among the messages on the wire. *)
Definition file_frames (ms : list Frame) : list File :=
  omap (fun m => match m with MsgFile f => Some f | _ => None end) ms.

(** The file a goroutine has announced with its File message: none before
    [sendFile] has got to line 112. *)
Definition announced_by (g : Goroutine) : list File :=
  match g_pc g with
  | AtOpen => []
  | _ => [g_file g]
  end.

Definition announced (l : list Goroutine) : list File :=
  concat (map announced_by l).

Lemma file_frames_app ms1 ms2 :
  file_frames (ms1 ++ ms2) = file_frames ms1 ++ file_frames ms2.
Proof. apply omap_app. Qed.

Lemma announced_app l1 l2 : announced (l1 ++ l2) = announced l1 ++ announced l2.
Proof. unfold announced. by rewrite map_app, concat_app. Qed.

Lemma announced_insert l i g g' :
  l !! i = Some g ->
  announced (<[i := g']> l) ++ announced_by g ≡ₚ announced l ++ announced_by g'.
Proof.
  revert i. induction l as [| g0 l IH]; intros [| i] Hi; simpl in *; simplify_eq.
  - unfold announced. simpl. rewrite <- !(assoc_L (++)).
    rewrite (comm (++) (concat _) (announced_by g)).
    rewrite (comm (++) (concat _) (announced_by g')).
    rewrite !(assoc_L (++)). f_equiv. apply (comm (++)).
  - unfold announced in *. simpl. rewrite <- !(assoc_L (++)). f_equiv.
    by apply IH.
Qed.

Lemma announced_returned l :
  (forall i g, l !! i = Some g -> g_pc g = Returned) -> announced l = map g_file l.
Proof.
  induction l as [| g l IH]; intros Hall; [done |].
  unfold announced in *. simpl. unfold announced_by at 1.
  rewrite (Hall 0 g eq_refl). simpl. f_equal.
  apply IH. intros i g' Hi. by apply (Hall (S i)).
Qed.

Lemma file_frames_prints outs : file_frames (emitted (map Print outs)) = [].
Proof. by induction outs. Qed.

Lemma file_frames_main_events evs :
  Forall main_event evs ->
  (forall m, In (EvSend Main m) evs -> file_frames [m] = []) ->
  file_frames (wire evs) = [].
Proof.
  induction 1 as [| e evs He _ IH]; intros Hm; [done |].
  destruct e as [[| i] m | [| i] o | | |]; simpl in *; try done;
    try (apply IH; intros m' Hm'; apply Hm; by right).
  assert (file_frames [m] = []) as Hf by (apply Hm; by left).
  destruct m; simpl in *; try done;
    apply IH; intros m' Hm'; apply Hm; by right.
Qed.

Section SessionOrder.
Variable conf : Config.
Variable w : World.

(** A step of [sendFile] sends the File message exactly when it leaves
    [AtOpen]. *)
Lemma sendFile_step_announces file r pc pc' eff :
  sendFile_step conf w file pc = Some (pc', eff) ->
  announced_by (mkGoroutine file r pc) ++ file_frames (emitted eff)
  = announced_by (mkGoroutine file r pc').
Proof.
  destruct pc as [| fp sentChunks lastPercentage |]; [| | done].
  - intros [= <- <-]. unfold announced_by. simpl.
    by destruct (os_Open w _).
  - intros Hstep. apply sendFile_step_AtRead in Hstep
      as (n & buf & err & fp' & _ & Hcases).
    unfold announced_by. simpl.
    destruct Hcases as [(_ & _ & -> & ->) | [(_ & -> & ->) | (_ & _ & outs & last' & -> & _ & ->)]];
      try done.
    by rewrite emitted_app, file_frames_app, file_frames_prints.
Qed.

Lemma announced_run sched s :
  run conf w sched = Some s ->
  file_frames (wire (trace s)) ≡ₚ announced (senders s).
Proof.
  revert sched s.
  apply (run_invariant conf w
           (fun s => file_frames (wire (trace s)) ≡ₚ announced (senders s)));
    [done |].
  intros [| i] s0 s1 _ _ IH Hstep; simpl in Hstep.
  - apply (main_step_cases conf w) in Hstep
      as (evs & -> & [(Hev & -> & Hm) | (file & -> & ->)]).
    + rewrite wire_app, file_frames_app.
      rewrite (file_frames_main_events evs Hev); [by rewrite app_nil_r |].
      intros m Hin. by destruct (Hm m Hin) as [-> | ->].
    + rewrite wire_app, file_frames_app, announced_app. simpl.
      by rewrite !app_nil_r.
  - apply (sender_step_trace conf w) in Hstep
      as (g & pc' & eff & dn & Hi & Hsf & -> & -> & Hdn).
    rewrite !wire_app, !file_frames_app, wire_effects.
    assert (file_frames (wire dn) = []) as -> by (by destruct Hdn as [-> | ->]).
    rewrite app_nil_r.
    apply (Permutation_app_inv_r (announced_by g)).
    rewrite (announced_insert _ _ _ _ Hi).
    rewrite <- (sendFile_step_announces (g_file g) (g_round g) (g_pc g) pc' eff Hsf).
    assert (mkGoroutine (g_file g) (g_round g) (g_pc g) = g) as -> by (by destruct g).
    rewrite IH. rewrite <- !(assoc_L (++)). f_equiv. apply (comm (++)).
Qed.

(** X11.  Every file is announced once: in every state of every run the
    File messages on the wire are, up to their order, the files of the
    goroutines that have got past their File message, and when the session
    has run to its end they are the enumerated descriptors, each exactly
    once (whether or not the file could be opened or read). *)
Theorem every_file_announced_once (sched : list Actor) (s : State) :
  run conf w sched = Some s ->
  file_frames (wire (trace s)) ≡ₚ announced (senders s)
  /\ (pc s = Exited true ->
      file_frames (wire (trace s)) ≡ₚ files (enumerate conf w)
      /\ NoDup (map ID (file_frames (wire (trace s))))).
Proof.
  intros Hrun. pose proof (announced_run sched s Hrun) as Hperm.
  split; [done |]. intros Hexit.
  pose proof (sched_inv_run conf w sched s Hrun) as Hsched.
  pose proof (inv_pc conf w s Hsched) as Hpc.
  pose proof (inv_break conf w s Hsched) as Hbreak.
  pose proof (inv_queue conf w s Hsched) as Hq.
  rewrite Hexit in Hpc, Hbreak, Hq. destruct Hbreak as [_ Hnil].
  rewrite Hnil, app_nil_r in Hq.
  rewrite (announced_returned _ Hpc), Hq in Hperm.
  split; [done |]. rewrite Hperm. apply enumerate_ids_NoDup.
Qed.

(** Events of sender [i]. *)
Definition by_sender (i : nat) (e : Event) : Prop :=
  match e with
  | EvSend (Sender j) _ | EvOut (Sender j) _ => j = i
  | _ => False
  end.

(** What an event comes after: an event of a sender comes after the [go]
    that started the sender and not after the sender's return; the [go] of
    goroutine [j] comes after the [go] of every goroutine below [j]. *)
Definition ok_next (tr : list Event) (e : Event) : Prop :=
  match e with
  | EvSend (Sender i) _ | EvOut (Sender i) _ =>
      (exists r file, In (EvGo i r file) tr) /\ ~ In (EvDone i) tr
  | EvGo j _ _ => forall i, i < j -> exists r file, In (EvGo i r file) tr
  | _ => True
  end.

Definition ordered (tr : list Event) : Prop :=
  forall pre e post, tr = pre ++ e :: post -> ok_next pre e.

Lemma ordered_snoc tr e : ordered tr -> ok_next tr e -> ordered (tr ++ [e]).
Proof.
  intros Hord He pre e' post Heq.
  destruct post as [| x post _] using rev_ind.
  - apply app_inj_tail in Heq as [<- <-]. exact He.
  - change (pre ++ e' :: post ++ [x]) with (pre ++ (e' :: post) ++ [x]) in Heq.
    rewrite (assoc_L (++)) in Heq. apply app_inj_tail in Heq as [-> _].
    by eapply Hord.
Qed.

Lemma ordered_app_effects tr i eff :
  ordered tr -> (exists r file, In (EvGo i r file) tr) -> ~ In (EvDone i) tr ->
  ordered (tr ++ map (effect_event (Sender i)) eff).
Proof.
  revert tr. induction eff as [| e eff IH]; intros tr Hord Hgo Hdone; simpl.
  - by rewrite app_nil_r.
  - rewrite cons_middle, (assoc_L (++)). apply IH.
    + apply ordered_snoc; [done |]. by destruct e.
    + destruct Hgo as (r & file & Hin). exists r, file. apply in_app_iff. by left.
    + intros [H | [H | []]]%in_app_iff; [done |]. by destruct e.
Qed.

Lemma ordered_app_plain tr evs :
  ordered tr ->
  Forall (fun e => main_event e \/ exists i, e = EvDone i) evs ->
  ordered (tr ++ evs).
Proof.
  intros Hord Hevs. revert tr Hord.
  induction Hevs as [| e evs He _ IH]; intros tr Hord; simpl.
  - by rewrite app_nil_r.
  - rewrite cons_middle, (assoc_L (++)). apply IH.
    apply ordered_snoc; [done |].
    destruct He as [He | [i ->]]; [| done].
    by destruct e as [[] ? | [] ? | | |].
Qed.

Lemma ordered_run sched s : run conf w sched = Some s -> ordered (trace s).
Proof.
  revert sched s.
  apply (run_invariant conf w (fun s => ordered (trace s)));
    [by intros [] ? ? ? |].
  intros [| i] s0 s1 Hsched Htrace IH Hstep; simpl in Hstep.
  - apply (main_step_cases conf w) in Hstep
      as (evs & -> & [(Hev & _ & _) | (file & -> & _)]).
    + apply ordered_app_plain; [done |]. revert Hev. apply Forall_impl. auto.
    + apply ordered_snoc; [done |]. intros j Hj.
      destruct (lookup_lt_is_Some_2 (senders s0) j Hj) as [g Hg].
      exists (g_round g), (g_file g).
      apply (inv_go conf w s0 Htrace). by exists g.
  - apply (sender_step_trace conf w) in Hstep
      as (g & pc' & eff & dn & Hi & Hsf & _ & -> & Hdn).
    rewrite (assoc_L (++)). apply ordered_app_plain.
    + apply ordered_app_effects; [done | |].
      * exists (g_round g), (g_file g). apply (inv_go conf w s0 Htrace). by exists g.
      * intros (g' & Hi' & Hret)%(inv_done conf w s0 Htrace).
        rewrite Hi in Hi'. injection Hi' as <-. by rewrite Hret in Hsf.
    + destruct Hdn as [-> | ->]; [constructor |].
      constructor; [right; by exists i | constructor].
Qed.

(** X12.  The rounds do not overlap in what the senders send and print:
    once a goroutine of some round has produced an event, every goroutine
    of every earlier round has returned, and produces no event any more.
    With [-t 1] (the default) the files are therefore sent one after the
    other in queue order. *)
Theorem rounds_do_not_overlap (sched : list Actor) (s : State) :
  (Threads conf < 65536)%N ->
  run conf w sched = Some s ->
  (forall pre ej post i j gi gj,
      trace s = pre ++ ej :: post ->
      by_sender j ej ->
      senders s !! i = Some gi -> senders s !! j = Some gj ->
      g_round gi < g_round gj ->
      In (EvDone i) pre /\ forall ei, In ei post -> ~ by_sender i ei)
  /\ (Threads conf = 1%N ->
      forall pre ej post i j,
        trace s = pre ++ ej :: post ->
        by_sender j ej -> i < j ->
        In (EvDone i) pre /\ forall ei, In ei post -> ~ by_sender i ei).
Proof.
  intros Hu16 Hrun.
  pose proof (trace_inv_run conf w sched s Hrun) as Htrace.
  pose proof (rounds_inv_run conf w sched s Hu16 Hrun) as [Hdiv _].
  pose proof (ordered_run sched s Hrun) as Hord.
  assert (forall pre ej post i j gi gj,
             trace s = pre ++ ej :: post ->
             by_sender j ej ->
             senders s !! i = Some gi -> senders s !! j = Some gj ->
             g_round gi < g_round gj ->
             In (EvDone i) pre /\ forall ei, In ei post -> ~ by_sender i ei)
    as Hmain.
  { intros pre ej post i j gi gj Heq Hj Hi Hgj Hlt.
    assert (exists r file, In (EvGo j r file) pre) as (r & file & Hgo).
    { pose proof (Hord pre ej post Heq) as Hok.
      destruct ej as [[| k] m | [| k] o | | |]; simpl in Hj, Hok; try done;
        subst k; by destruct Hok. }
    assert (In (EvDone i) pre) as Hdone.
    { apply in_split in Hgo as (p1 & p2 & ->).
      rewrite <- (assoc_L (++)) in Heq. simpl in Heq.
      pose proof (Hord _ _ _ Heq) as Hok. simpl in Hok.
      assert (i < j) as Hij.
      { destruct (Hdiv i gi Hi) as [HT Hri]. destruct (Hdiv j gj Hgj) as [_ Hrj].
        destruct (decide (i < j)) as [? | Hge]; [done |].
        assert (j `div` T conf <= i `div` T conf)
          by (apply Nat.Div0.div_le_mono; lia).
        lia. }
      destruct (Hok i Hij) as (r' & file' & Hgo').
      assert (r' = g_round gi) as ->.
      { assert (In (EvGo i r' file') (trace s)) as Hin
          by (rewrite Heq; apply in_app_iff; by left).
        apply (inv_go conf w s Htrace) in Hin as (g & Hg & <- & _). congruence. }
      assert (r = g_round gj) as ->.
      { assert (In (EvGo j r file) (trace s)) as Hin
          by (rewrite Heq; apply in_app_iff; right; by left).
        apply (inv_go conf w s Htrace) in Hin as (g & Hg & <- & _). congruence. }
      apply in_app_iff. left.
      by apply (inv_barrier conf w s Htrace _ _ _ _ _ Heq i (g_round gi) file'). }
    split; [done |]. intros ei Hin Hei.
    apply in_split in Hin as (q1 & q2 & ->).
    assert (trace s = (pre ++ ej :: q1) ++ ei :: q2) as Heq'
      by (by rewrite Heq, <- (assoc_L (++))).
    pose proof (Hord _ _ _ Heq') as Hok.
    destruct ei as [[| k] m | [| k] o | | |]; simpl in Hei, Hok; try done;
      subst k; destruct Hok as [_ Hno]; apply Hno, in_app_iff; by left. }
  split; [done |].
  intros HT pre ej post i j Heq Hj Hij.
  assert (T conf = 1) as HT1 by (unfold T; by rewrite HT).
  assert (is_Some (senders s !! j)) as [gj Hgj].
  { pose proof (Hord pre ej post Heq) as Hok.
    assert (exists r file, In (EvGo j r file) (trace s)) as (r & file & Hgo).
    { destruct ej as [[| k] m | [| k] o | | |]; simpl in Hj, Hok; try done;
        subst k; destruct Hok as [(r & file & Hgo) _]; exists r, file;
        rewrite Heq; apply in_app_iff; by left. }
    apply (inv_go conf w s Htrace) in Hgo as (g & Hg & _). by exists g. }
  assert (is_Some (senders s !! i)) as [gi Hgi].
  { apply lookup_lt_is_Some_2. apply lookup_lt_Some in Hgj. lia. }
  apply (Hmain pre ej post i j gi gj Heq Hj Hgi Hgj).
  destruct (Hdiv i gi Hgi) as [_ ->]. destruct (Hdiv j gj Hgj) as [_ ->].
  by rewrite HT1, !Nat.div_1_r.
Qed.

End SessionOrder.

Lemma every_file_announced_once_witness :
  run demo_conf demo_world demo_sched = Some demo_final
  /\ file_frames (wire (trace demo_final))
     ≡ₚ files (enumerate demo_conf demo_world).
Proof.
  assert (run demo_conf demo_world demo_sched = Some demo_final) as Hrun
    by (vm_compute; reflexivity).
  split; [exact Hrun |].
  destruct (every_file_announced_once demo_conf demo_world demo_sched
              demo_final Hrun) as [_ Hexit].
  destruct (Hexit eq_refl) as [Hperm _]. exact Hperm.
Defined.

(** In the session above the first event of the sender of [c.txt], which
    belongs to the second round, comes after the return of the sender of
    [a.txt]. *)
Lemma rounds_do_not_overlap_witness :
  run demo_conf demo_world demo_sched = Some demo_final
  /\ In (EvDone 0) (take 16 (trace demo_final)).
Proof.
  assert (run demo_conf demo_world demo_sched = Some demo_final) as Hrun
    by (vm_compute; reflexivity).
  split; [exact Hrun |].
  destruct (rounds_do_not_overlap demo_conf demo_world demo_sched demo_final)
    as [Hrounds _].
  - vm_compute. reflexivity.
  - exact Hrun.
  - destruct (Hrounds (take 16 (trace demo_final))
                (EvOut (Sender 2) (OutFileHeader ["c.txt"%string] 12))
                (drop 17 (trace demo_final)) 0 2
                {| g_file := a_txt; g_round := 0; g_pc := Returned |}
                {| g_file := c_txt; g_round := 1; g_pc := Returned |})
      as [Hdone _].
    + vm_compute. reflexivity.
    + reflexivity.
    + vm_compute. reflexivity.
    + vm_compute. reflexivity.
    + vm_compute. lia.
    + exact Hdone.
Defined.

(** ** The session: telling the files apart on the wire *)

(** The file a message belongs to, by the identifier it carries. *)
Definition frame_file (m : Frame) : option UUID :=
  match m with
  | MsgFile f => Some (ID f)
  | MsgFileChunk c => Some (CID c)
  | _ => None
  end.

(** The messages of the file [id] among the messages on the wire, in
    order. *)
Definition frames_of_file (id : UUID) (ms : list Frame) : list Frame :=
  List.filter (fun m => bool_decide (frame_file m = Some id)) ms.

Lemma frames_of_file_sent_by id i tr :
  (forall j m, In (EvSend (Sender j) m) tr -> frame_file m = Some id <-> j = i) ->
  (forall m, In (EvSend Main m) tr -> frame_file m <> Some id) ->
  frames_of_file id (wire tr) = sent_by i tr.
Proof.
  unfold sent_by, frames_of_file.
  induction tr as [| e tr IH]; intros Hs Hm; [done |].
  assert (List.filter (fun m => bool_decide (frame_file m = Some id)) (wire tr)
          = emitted (effects_of i tr)) as IH'.
  { apply IH; [intros j m Hin; apply Hs; by right
              | intros m Hin; apply Hm; by right]. }
  destruct e as [[| j] m | [| j] o | | |]; simpl; try done.
  - rewrite bool_decide_eq_false_2; [done |]. apply Hm. by left.
  - destruct (decide (j = i)) as [-> | Hne]; simpl.
    + rewrite bool_decide_eq_true_2; [by rewrite IH' |].
      apply (Hs i m); [by left | done].
    + rewrite bool_decide_eq_false_2; [done |].
      intros Hid. apply Hne. apply (Hs j m); [by left | done].
  - by destruct (decide (j = i)).
Qed.

Section SessionFiles.
Variable conf : Config.
Variable w : World.

(** The goroutines run on files with pairwise distinct identifiers. *)
Lemma senders_ids_distinct s i j gi gj :
  sched_inv conf w s ->
  senders s !! i = Some gi -> senders s !! j = Some gj ->
  ID (g_file gi) = ID (g_file gj) -> i = j.
Proof.
  intros Hsched Hi Hj Hid.
  pose proof (inv_queue conf w s Hsched) as Hq.
  pose proof (inv_pc conf w s Hsched) as Hpc.
  assert (map g_file (senders s) ++ queue s = files (enumerate conf w)) as Hq'.
  { destruct (pc s) as [| | | | ? | | | | [] |]; try done;
      destruct Hpc as [_ Hnil]; by rewrite Hnil in Hi. }
  assert (NoDup (map ID (map g_file (senders s)))) as Hnd.
  { pose proof (enumerate_ids_NoDup conf w) as Hall.
    rewrite <- Hq', map_app in Hall. by apply list.NoDup_app in Hall as [? _]. }
  eapply (NoDup_lookup _ i j (ID (g_file gi)) Hnd).
  - by rewrite !list_lookup_fmap, Hi.
  - by rewrite !list_lookup_fmap, Hj, Hid.
Qed.

(** X13.  The receiver can tell the files apart whatever the interleaving:
    in every state of every run, the messages on the wire that carry the
    identifier of the file of goroutine [i] are exactly the messages that
    goroutine [i] has sent, in the order it sent them (its File message,
    then its chunks in sequence). *)
Theorem wire_demultiplexes_by_file_ID (sched : list Actor) (s : State)
        (i : nat) (g : Goroutine) :
  run conf w sched = Some s ->
  senders s !! i = Some g ->
  frames_of_file (ID (g_file g)) (wire (trace s)) = sent_by i (trace s)
  /\ (sent_by i (trace s) = []
      \/ exists chunks,
          sent_by i (trace s) = MsgFile (g_file g) :: map MsgFileChunk chunks
          /\ map Seq chunks = seq 0 (length chunks)).
Proof.
  intros Hrun Hi.
  pose proof (sched_inv_run conf w sched s Hrun) as Hsched.
  pose proof (trace_inv_run conf w sched s Hrun) as Htrace.
  pose proof (main_sends_run conf w sched s Hrun) as Hmain.
  split.
  - apply frames_of_file_sent_by.
    + intros j m Hin.
      destruct (sender_frame conf w s j m Htrace Hin) as (gj & Hj & Hm).
      assert (frame_file m = Some (ID (g_file gj))) as ->
        by (destruct Hm as [-> | (c & -> & Hc & _)]; simpl; by f_equal).
      split.
      * intros [= Hid]. by apply (senders_ids_distinct s j i gj g).
      * intros ->. congruence.
    + intros m Hin. by destruct (Hmain m Hin) as [-> | ->].
  - pose proof (inv_reach conf w s Htrace i g Hi) as Hreach.
    apply sender_reach_emitted in Hreach as [Hnil | (chunks & Hem & Hseq & _)].
    + by left.
    + right. by exists chunks.
Qed.

End SessionFiles.

Lemma wire_demultiplexes_by_file_ID_witness :
  run demo_conf demo_world (take 9 demo_sched) = Some demo_midway
  /\ frames_of_file 1 (wire (trace demo_midway)) = sent_by 0 (trace demo_midway).
Proof.
  assert (run demo_conf demo_world (take 9 demo_sched) = Some demo_midway)
    as Hrun by (vm_compute; reflexivity).
  split; [exact Hrun |].
  destruct (senders demo_midway !! 0) as [g |] eqn:Hg; [| discriminate].
  destruct (wire_demultiplexes_by_file_ID demo_conf demo_world
              (take 9 demo_sched) demo_midway 0 g Hrun Hg) as [Hdemux _].
  assert (ID (g_file g) = 1) as Hid by (by injection Hg as <-).
  rewrite Hid in Hdemux. exact Hdemux.
Defined.

(** ** [collectFiles]: the list it is given, and the entries it skips *)




(** * The transfer session: frames under the guard *)

(** Modelled from the spec: the Transfer Session of section 4.3 (package
    ncclient, which is not in the source tree): [send(message)] serializes
    the message to a frame and writes it to the transport, holding the
    guard for the duration of the write.  The write itself is modelled byte
    by byte, so that callers can be interleaved at every byte; the model
    above takes [cln.SendMessage] as one event, which is what this section
    justifies. *)
Module TransferSession.
Section Guard.
Context {frame : Type}.
Variable encode : frame -> list byte.
Variable decode : list byte -> option (frame * list byte).

(** The Frame Codec is self-delimiting, and no frame is empty (a frame
    starts with its type tag). *)
Hypothesis decode_encode : forall m rest, decode (encode m ++ rest) = Some (m, rest).
Hypothesis encode_nonempty : forall m, encode m <> [].

(** A caller of [send]: outside of [send], with the messages it is still
    going to send, or inside, holding the guard, with the bytes of its frame
    that are not yet written. *)
Inductive Caller :=
| Outside (todo : list frame)
| Inside (rest : list byte) (todo : list frame).

Record Conn := mkConn {
  guard : option nat;          (* who holds the mutual-exclusion guard *)
  callers : list Caller;
  stream : list byte;          (* the bytes written to the transport *)
  log : list (nat * frame)     (* the calls of send, in the order of the guard *)
}.

Definition start (todos : list (list frame)) : Conn :=
  {| guard := None; callers := map Outside todos; stream := []; log := [] |}.

(** One step of caller [i]: take the guard and serialize the next message
    (blocked while the guard is held); write one byte; release the guard
    when the frame is written. *)
Definition send_step (i : nat) (c : Conn) : option Conn :=
  match callers c !! i with
  | Some (Outside (m :: todo)) =>
      match guard c with
      | None => Some (mkConn (Some i) (<[i := Inside (encode m) todo]> (callers c))
                        (stream c) (log c ++ [(i, m)]))
      | Some _ => None
      end
  | Some (Inside (b :: rest) todo) =>
      Some (mkConn (guard c) (<[i := Inside rest todo]> (callers c))
              (stream c ++ [b]) (log c))
  | Some (Inside [] todo) =>
      Some (mkConn None (<[i := Outside todo]> (callers c)) (stream c) (log c))
  | _ => None
  end.

Fixpoint send_exec (sched : list nat) (c : Conn) : option Conn :=
  match sched with
  | [] => Some c
  | i :: sched' =>
      match send_step i c with
      | None => None
      | Some c' => send_exec sched' c'
      end
  end.

(** The frames of a list of calls, end to end. *)
Definition frames_of (l : list (nat * frame)) : list byte :=
  concat (map (fun x => encode x.2) l).

(** What a caller still has to send. *)
Definition unsent (c : Conn) (i : nat) : list frame :=
  match callers c !! i with
  | Some (Outside todo) | Some (Inside _ todo) => todo
  | None => []
  end.

(** The messages of caller [i] among the calls. *)
Fixpoint calls_of (i : nat) (l : list (nat * frame)) : list frame :=
  match l with
  | [] => []
  | (j, m) :: l' => if decide (j = i) then m :: calls_of i l' else calls_of i l'
  end.

(** Decoding a stream frame by frame, at most [fuel] frames. *)
Fixpoint decode_stream (fuel : nat) (bs : list byte) : option (list frame) :=
  match bs, fuel with
  | [], _ => Some []
  | _, 0 => None
  | _, S fuel' =>
      match decode bs with
      | Some (m, rest) => cons m <$> decode_stream fuel' rest
      | None => None
      end
  end.

(** The invariant of the guard: with the guard free every caller is outside
    of [send] and the stream is made of whole frames; with the guard held by
    [i], caller [i] alone is inside, and the stream is made of whole frames
    followed by the part of its frame written so far. *)
Definition intact (todos : list (list frame)) (c : Conn) : Prop :=
  length (callers c) = length todos
  /\ (forall i todo, todos !! i = Some todo -> calls_of i (log c) ++ unsent c i = todo)
  /\ match guard c with
     | None =>
         stream c = frames_of (log c)
         /\ forall j rest todo, callers c !! j <> Some (Inside rest todo)
     | Some i =>
         exists log' m written rest todo,
           log c = log' ++ [(i, m)]
           /\ callers c !! i = Some (Inside rest todo)
           /\ encode m = written ++ rest
           /\ stream c = frames_of log' ++ written
           /\ forall j rest' todo', j <> i -> callers c !! j <> Some (Inside rest' todo')
     end.

Lemma frames_of_app l1 l2 : frames_of (l1 ++ l2) = frames_of l1 ++ frames_of l2.
Proof. unfold frames_of. by rewrite map_app, concat_app. Qed.

Lemma calls_of_snoc i j m l :
  calls_of i (l ++ [(j, m)])
  = calls_of i l ++ (if decide (j = i) then [m] else []).
Proof.
  induction l as [| [k m'] l IH]; simpl; [done |].
  rewrite IH. by destruct (decide (k = i)).
Qed.

Lemma unsent_insert c i j x g s l :
  i < length (callers c) ->
  unsent (mkConn g (<[i := x]> (callers c)) s l) j
  = if decide (i = j)
    then match x with Outside todo | Inside _ todo => todo end
    else unsent c j.
Proof.
  intros Hi. unfold unsent. simpl. destruct (decide (i = j)) as [<- | Hne].
  - by rewrite list_lookup_insert_eq.
  - by rewrite list_lookup_insert_ne.
Qed.

Lemma intact_start todos : intact todos (start todos).
Proof.
  split; [simpl; by rewrite length_map |]. split.
  - intros i todo Hi. unfold unsent, start. simpl.
    by rewrite list_lookup_fmap, Hi.
  - simpl. split; [done |]. intros j rest todo.
    rewrite list_lookup_fmap. by destruct (todos !! j).
Qed.

(** Whoever is inside [send] holds the guard. *)
Lemma inside_holds_guard todos c i rest todo :
  intact todos c -> callers c !! i = Some (Inside rest todo) ->
  guard c = Some i.
Proof.
  intros (_ & _ & Hguard) Hi. destruct (guard c) as [k |].
  - destruct Hguard as (log' & m & written & rest0 & todo0 & _ & _ & _ & _ & Hothers).
    destruct (decide (i = k)) as [-> | Hne]; [done |]. by destruct (Hothers i rest todo).
  - destruct Hguard as [_ Hnone]. by destruct (Hnone i rest todo).
Qed.

Lemma intact_step todos i c c' :
  intact todos c -> send_step i c = Some c' -> intact todos c'.
Proof.
  intros Hinv. pose proof Hinv as (Hlen & Hcons & Hguard). unfold send_step.
  destruct (callers c !! i) as [[[| m todo] | [| b rest] todo] |] eqn:Hi; try done.
  - (* take the guard *)
    destruct (guard c) as [k |] eqn:Hg; [done |]. intros [= <-].
    pose proof (lookup_lt_Some _ _ _ Hi) as Hlt. destruct Hguard as [Hstream Hnone].
    split; [by rewrite <- Hlen; simpl; rewrite length_insert |]. split; simpl.
    + intros j todo' Hj. rewrite calls_of_snoc, unsent_insert by done.
      rewrite <- (Hcons j todo' Hj). unfold unsent.
      destruct (decide (i = j)) as [<- | Hne].
      * by rewrite Hi, <- (assoc_L (++)).
      * by rewrite app_nil_r.
    + exists (log c), m, [], (encode m), todo. repeat split; try done.
      * by rewrite list_lookup_insert_eq.
      * by rewrite app_nil_r.
      * intros j rest' todo' Hne. rewrite list_lookup_insert_ne by done. apply Hnone.
  - (* the frame is written: release the guard *)
    intros [= <-]. pose proof (lookup_lt_Some _ _ _ Hi) as Hlt.
    rewrite (inside_holds_guard todos c i [] todo Hinv Hi) in Hguard.
    destruct Hguard as (log' & m & written & rest0 & todo0 & Hlog & Hi' & Henc & Hstream & Hothers).
    rewrite Hi in Hi'. injection Hi' as <- <-.
    split; [by rewrite <- Hlen; simpl; rewrite length_insert |]. split; simpl.
    + intros j todo' Hj. rewrite unsent_insert by done.
      rewrite <- (Hcons j todo' Hj). unfold unsent.
      destruct (decide (i = j)) as [<- | Hne]; [by rewrite Hi |]. done.
    + split.
      * rewrite Hstream, Hlog, frames_of_app. unfold frames_of at 3. simpl.
        by rewrite Henc, !app_nil_r.
      * intros j rest' todo'. destruct (decide (i = j)) as [<- | Hne].
        -- by rewrite list_lookup_insert_eq.
        -- rewrite list_lookup_insert_ne by done. by apply Hothers.
  - (* write one byte *)
    intros [= <-]. pose proof (lookup_lt_Some _ _ _ Hi) as Hlt.
    rewrite (inside_holds_guard todos c i _ todo Hinv Hi) in Hguard.
    pose proof (inside_holds_guard todos c i _ todo Hinv Hi) as Hg.
    destruct Hguard as (log' & m & written & rest0 & todo0 & Hlog & Hi' & Henc & Hstream & Hothers).
    rewrite Hi in Hi'. injection Hi' as <- <-.
    split; [by rewrite <- Hlen; simpl; rewrite length_insert |]. split; simpl.
    + intros j todo' Hj. rewrite unsent_insert by done.
      rewrite <- (Hcons j todo' Hj). unfold unsent.
      destruct (decide (i = j)) as [<- | Hne]; [by rewrite Hi |]. done.
    + rewrite Hg. exists log', m, (written ++ [b]), rest, todo. repeat split; try done.
      * by rewrite list_lookup_insert_eq.
      * by rewrite <- (assoc_L (++)).
      * by rewrite Hstream, (assoc_L (++)).
      * intros j rest' todo' Hne. rewrite list_lookup_insert_ne by done.
        by apply Hothers.
Qed.

Lemma intact_exec todos sched c c' :
  intact todos c -> send_exec sched c = Some c' -> intact todos c'.
Proof.
  revert c. induction sched as [| i sched IH]; intros c Hinv; simpl.
  - by intros [= <-].
  - destruct (send_step i c) as [c1 |] eqn:Hstep; [| done].
    apply IH. by eapply intact_step.
Qed.

Lemma decode_frames l fuel :
  length l <= fuel -> decode_stream fuel (frames_of l) = Some (map snd l).
Proof using decode_encode encode_nonempty.
  revert fuel. induction l as [| [i m] l IH]; intros fuel Hfuel; [by destruct fuel |].
  unfold frames_of. simpl. fold (frames_of l).
  destruct (encode m ++ frames_of l) as [| b bs] eqn:Hbs.
  { apply app_eq_nil in Hbs as [Hnil _]. by apply encode_nonempty in Hnil. }
  destruct fuel as [| fuel]; [simpl in Hfuel; lia |].
  simpl. rewrite <- Hbs, decode_encode, IH by (simpl in Hfuel; lia). done.
Qed.

(** C5.  However the callers of [send] are interleaved, byte by byte: the
    stream is always a sequence of whole frames, followed, while some caller
    holds the guard, by a part of that caller's frame alone; every caller's
    messages are framed in the order it sent them, none lost and none twice;
    and whenever the guard is free, decoding the stream gives back exactly
    the messages sent, in the order the guard was taken. *)
Theorem frames_never_interleave (todos : list (list frame))
        (sched : list nat) (c : Conn) :
  send_exec sched (start todos) = Some c ->
  (exists whole partial,
      stream c = frames_of whole ++ partial
      /\ match guard c with
         | None => whole = log c /\ partial = []
         | Some i => exists m rest, log c = whole ++ [(i, m)]
                                    /\ encode m = partial ++ rest
         end)
  /\ (forall i todo, todos !! i = Some todo ->
                     calls_of i (log c) ++ unsent c i = todo)
  /\ (guard c = None ->
      decode_stream (length (log c)) (stream c) = Some (map snd (log c))).
Proof using decode_encode encode_nonempty.
  intros Hexec.
  pose proof (intact_exec todos sched _ c (intact_start todos) Hexec)
    as (_ & Hcons & Hguard).
  split; [| split; [done |]].
  - destruct (guard c) as [i |].
    + destruct Hguard as (log' & m & written & rest & todo & Hlog & _ & Henc & Hstream & _).
      exists log', written. split; [done |]. by exists m, rest.
    + destruct Hguard as [Hstream _]. exists (log c), [].
      by rewrite app_nil_r.
  - intros Hfree. rewrite Hfree in Hguard. destruct Hguard as [-> _].
    by apply decode_frames.
Qed.

End Guard.

(** A codec to run the model on: a frame is a tag and one byte of payload. *)
Definition demo_encode (m : byte * byte) : list byte := [m.1; m.2].

Definition demo_decode (bs : list byte) : option ((byte * byte) * list byte) :=
  match bs with
  | t :: p :: rest => Some ((t, p), rest)
  | _ => None
  end.

(** Two callers, with two messages and one message; the second caller
    takes the guard between the two frames of the first. *)
Definition two_callers : list (list (byte * byte)) :=
  [[(x01, x61); (x01, x62)]; [(x02, x7a)]].

Definition two_callers_sched : list nat := [0; 0; 0; 0; 1; 1; 1; 1; 0; 0; 0; 0].

Lemma frames_never_interleave_witness :
  (forall m rest, demo_decode (demo_encode m ++ rest) = Some (m, rest))
  /\ (forall m, demo_encode m <> [])
  /\ (stream <$> send_exec demo_encode two_callers_sched (start two_callers))
     = Some [x01; x61; x02; x7a; x01; x62]
  /\ forall c, send_exec demo_encode two_callers_sched (start two_callers) = Some c ->
               guard c = None ->
               decode_stream demo_decode (length (log c)) (stream c)
               = Some (map snd (log c)).
Proof.
  assert (forall m rest, demo_decode (demo_encode m ++ rest) = Some (m, rest))
    as Hdec by (by intros [t p] rest).
  assert (forall m, demo_encode m <> []) as Hne by done.
  split; [exact Hdec |]. split; [exact Hne |]. split; [reflexivity |].
  intros c Hc.
  destruct (frames_never_interleave demo_encode demo_decode Hdec Hne
              two_callers two_callers_sched c Hc) as (_ & _ & Hdecode).
  exact Hdecode.
Defined.

(** While a caller is inside [send], another caller cannot start a frame. *)
Example guard_blocks_second_caller :
  (fun c => (guard c, stream c, send_step demo_encode 1 c))
    <$> send_exec demo_encode [0; 0] (start two_callers)
  = Some (Some 0, [x01], None).
Proof. reflexivity. Qed.

End TransferSession.
